(** * resourceLib: hash-indexed resource tables with linear hashing

    A shallow embedding of [src/libCom/cxxTemplates/resourceLib.h]:
    the integer hash mixer [integerHash], the identifier classes [intId],
    [chronIntId] and [stringId], the linear-hashing table [resTable] and
    the chronological table [chronIntIdResTable].

    Values of the C++ type [unsigned] and of [resTableIndex] (a [size_t])
    are natural numbers in [N]; arithmetic that can wrap is passed through
    [to_unsigned].  Chains ([tsSLList<T>]) are lists of records, the array
    of chain heads [pTable] is a list of chains. *)

From Stdlib Require Import NArith ZArith Lia List Bool.
From Stdlib Require Import Strings.Byte Strings.String.
From stdpp Require Import base list.

Open Scope N_scope.

(** ** Platform constants *)

(** Modelled from the spec: [<limits.h>] is not part of the sources; the
    canonical platform has [CHAR_BIT] = 8. *)
Definition CHAR_BIT : N := 8.

(** Modelled from the spec: the canonical platform has a 32 bit
    [unsigned], so [sizeof (unsigned)] is 4. *)
Definition sizeof_unsigned : N := 4.

(** Width in bits of [unsigned]. *)
Definition UINT_WIDTH : N := sizeof_unsigned * CHAR_BIT.

(** Wrap-around of [unsigned] arithmetic. *)
Definition to_unsigned (x : N) : N := x mod 2 ^ UINT_WIDTH.

(** [x - 1] in [unsigned] arithmetic. *)
Definition unsigned_pred (x : N) : N := to_unsigned (x + (2 ^ UINT_WIDTH - 1)).

(** ** integerHash *)

(** The loop
<<
    unsigned width = MAX_ID_WIDTH;
    do {
        width >>= 1u;
        hashid ^= hashid>>width;
    } while (width>MIN_INDEX_WIDTH);
>>
    entered with a non-zero [width].  Halving a positive binary number
    drops its last digit, which makes the recursion structural.  The second
    component counts the executions of the loop body. *)
Fixpoint integerHash_loop (MIN_INDEX_WIDTH : N) (width : positive)
    (hashid : N) : N * nat :=
  match width with
  | xH =>
      (* width >>= 1 leaves 0, and 0 > MIN_INDEX_WIDTH is false *)
      (N.lxor hashid (N.shiftr hashid 0), 1%nat)
  | xO w | xI w =>
      let hashid' := N.lxor hashid (N.shiftr hashid (Npos w)) in
      if MIN_INDEX_WIDTH <? Npos w
      then let (h, n) := integerHash_loop MIN_INDEX_WIDTH w hashid' in (h, S n)
      else (hashid', 1%nat)
  end.

(** The loop entered with any [width], zero included. *)
Definition integerHash_do (MIN_INDEX_WIDTH width hashid : N) : N * nat :=
  match width with
  | N0 => (N.lxor hashid (N.shiftr hashid 0), 1%nat)
  | Npos w => integerHash_loop MIN_INDEX_WIDTH w hashid
  end.

(** [integerHash ( MIN_INDEX_WIDTH, MAX_ID_WIDTH, id )].  The identifier is
    an unsigned value; its conversion to [resTableIndex] keeps the value.
    The shifts are those of C++ as long as [width] stays below the 64 bits
    of [resTableIndex], that is for [MAX_ID_WIDTH < 128]; C++ leaves a
    shift by 64 or more undefined. *)
Definition integerHash (MIN_INDEX_WIDTH MAX_ID_WIDTH id : N) : N :=
  fst (integerHash_do MIN_INDEX_WIDTH MAX_ID_WIDTH id).

(** Number of times the body of the loop of [integerHash] is executed. *)
Definition integerHash_trips (MIN_INDEX_WIDTH MAX_ID_WIDTH id : N) : nat :=
  snd (integerHash_do MIN_INDEX_WIDTH MAX_ID_WIDTH id).

(** ** The identifier contract

    "Classes of type ID must implement" [operator ==], [hash ()],
    [minIndexBitWidth ()] and [maxIndexBitWidth ()]. *)
Class Identifier (ID : Type) := {
  id_eqb : ID -> ID -> bool;
  id_hash : ID -> N;
  minIndexBitWidth : N;
  maxIndexBitWidth : N
}.
Arguments minIndexBitWidth ID {_}.
Arguments maxIndexBitWidth ID {_}.

(** ** intId *)

(** Modelled from the spec: [resTableIndex] is [size_t], declared outside
    the sources; the canonical platform is taken to have an 8 byte
    [size_t].  The value is returned by [intId::maxIndexBitWidth], which no
    operation of the table calls. *)
Definition sizeof_resTableIndex : N := 8.

Record intId (MIN_INDEX_WIDTH MAX_ID_WIDTH : N) : Type := mk_intId { id : N }.
Arguments mk_intId {_ _} _.
Arguments id {_ _} _.

#[export] Instance intId_Identifier (MIN_INDEX_WIDTH MAX_ID_WIDTH : N)
  : Identifier (intId MIN_INDEX_WIDTH MAX_ID_WIDTH) := {|
  id_eqb := fun this idIn => N.eqb (id this) (id idIn);
  id_hash := fun this => integerHash MIN_INDEX_WIDTH MAX_ID_WIDTH (id this);
  minIndexBitWidth := MIN_INDEX_WIDTH;
  maxIndexBitWidth := sizeof_resTableIndex * CHAR_BIT
|}.

(** [class chronIntId : public intId<unsigned, 8u, sizeof(unsigned)*CHAR_BIT>] *)
Definition chronIntId : Type := intId 8 (sizeof_unsigned * CHAR_BIT).

(** ** stringId *)

Inductive allocationType := copyString | refString.

(** [pStr] is [None] for a null pointer, and otherwise the bytes found at
    the pointer; the string ends at the first zero byte (or with the
    list). *)
Record stringId := mk_stringId {
  pStr : option (list byte);
  allocType : allocationType
}.

(** [strcmp (a, b) == 0] of the C library: the two strings agree byte for
    byte up to and including the terminating NUL. *)
Fixpoint strcmp_eq0 (a b : list byte) : bool :=
  match a, b with
  | [], [] => true
  | [], y :: _ => Byte.to_N y =? 0
  | x :: _, [] => Byte.to_N x =? 0
  | x :: a', y :: b' =>
      if Byte.to_N x =? Byte.to_N y
      then (if Byte.to_N x =? 0 then true else strcmp_eq0 a' b')
      else false
  end.

(** [stringId::operator ==] *)
Definition stringId_eqb (this idIn : stringId) : bool :=
  match pStr this, pStr idIn with
  | Some a, Some b => strcmp_eq0 a b
  | _, _ => false
  end.

Definition stringIdMinIndexWidth : N := CHAR_BIT.
Definition stringIdMaxIndexWidth : N := sizeof_unsigned.

Definition fastHashPermutedIndexSpace : list N := [
 39;159;180;252; 71;  6; 13;164;232; 35;226;155; 98;120;154; 69;
157; 24;137; 29;147; 78;121; 85;112;  8;248;130; 55;117;190;160;
176;131;228; 64;211;106; 38; 27;140; 30; 88;210;227;104; 84; 77;
 75;107;169;138;195;184; 70; 90; 61;166;  7;244;165;108;219; 51;
  9;139;209; 40; 31;202; 58;179;116; 33;207;146; 76; 60;242;124;
254;197; 80;167;153;145;129;233;132; 48;246; 86;156;177; 36;187;
 45;  1; 96; 18; 19; 62;185;234; 99; 16;218; 95;128;224;123;253;
 42;109;  4;247; 72;  5;151;136;  0;152;148;127;204;133; 17; 14;
182;217; 54;199;119;174; 82; 57;215; 41;114;208;206;110;239; 23;
189; 15;  3; 22;188; 79;113;172; 28;  2;222; 21;251;225;237;105;
102; 32; 56;181;126; 83;230; 53;158; 52; 59;213;118;100; 67;142;
220;170;144;115;205; 26;125;168;249; 66;175; 97;255; 92;229; 91;
214;236;178;243; 46; 44;201;250;135;186;150;221;163;216;162; 43;
 11;101; 34; 37;194; 25; 50; 12; 87;198;173;240;193;171;143;231;
111;141;191;103; 74;245;223; 20;161;235;122; 63; 89;149; 73;238;
134; 68; 93;183;241; 81;196; 49;192; 65;212; 94;203; 10;200; 47 ].

(** [fastHashPermutedIndexSpace [ i ]] *)
Definition permuted (i : N) : N :=
  nth (N.to_nat i) fastHashPermutedIndexSpace 0.

(** The four accumulators [h0 .. h3] of [stringId::hash]. *)
Record lanes := mk_lanes { h0 : N; h1 : N; h2 : N; h3 : N }.

(** The [while ( true )] loop of [stringId::hash].  [lane] tells which of
    the four statements of the body comes next. *)
Fixpoint stringHash_loop (pUStr : list byte) (lane : nat) (h : lanes)
    : lanes :=
  match pUStr with
  | [] => h
  | b :: pUStr' =>
      let c := Byte.to_N b in
      if c =? 0 then h
      else match lane with
           | 0%nat => stringHash_loop pUStr' 1%nat
               (mk_lanes (permuted (N.lxor (h0 h) c)) (h1 h) (h2 h) (h3 h))
           | 1%nat => stringHash_loop pUStr' 2%nat
               (mk_lanes (h0 h) (permuted (N.lxor (h1 h) c)) (h2 h) (h3 h))
           | 2%nat => stringHash_loop pUStr' 3%nat
               (mk_lanes (h0 h) (h1 h) (permuted (N.lxor (h2 h) c)) (h3 h))
           | _ => stringHash_loop pUStr' 0%nat
               (mk_lanes (h0 h) (h1 h) (h2 h) (permuted (N.lxor (h3 h) c)))
           end
  end.

(** [( h3 << 24 ) | ( h2 << 16 ) | ( h1 << 8 ) | h0] *)
Definition composite (h : lanes) : N :=
  N.lor (N.lor (N.lor (to_unsigned (N.shiftl (h3 h) 24))
                      (to_unsigned (N.shiftl (h2 h) 16)))
               (to_unsigned (N.shiftl (h1 h) 8)))
        (h0 h).

(** The composite computed from the bytes of a string. *)
Definition stringComposite (p : list byte) : N :=
  composite (stringHash_loop p 0%nat (mk_lanes 0 0 0 0)).

(** [stringId::hash] *)
Definition stringId_hash (this : stringId) : N :=
  match pStr this with
  | None => 0
  | Some pUStr =>
      integerHash stringIdMinIndexWidth stringIdMaxIndexWidth
        (stringComposite pUStr)
  end.

#[export] Instance stringId_Identifier : Identifier stringId := {|
  id_eqb := stringId_eqb;
  id_hash := stringId_hash;
  minIndexBitWidth := stringIdMinIndexWidth;
  maxIndexBitWidth := stringIdMaxIndexWidth
|}.

(** The string hash as the specification words it: the composite is passed
    through the mixer with [MIN_INDEX_WIDTH] = 8 and [MAX_ID_WIDTH] = 32. *)
Definition stringId_hash_spec (this : stringId) : N :=
  match pStr this with
  | None => 0
  | Some pUStr => integerHash 8 32 (stringComposite pUStr)
  end.

(** ** tsSLList *)

(** Modelled from the spec: [tsSLList.h] is not part of the sources.  A
    chain is the list of its records, first record first; [add] pushes at
    the front, [get] pops the front, and constructing a list from another
    one takes the whole chain over and leaves the other list empty. *)
Abbreviation tsSLList T := (list T).

Definition tsSLList_add {T : Type} (item : T) (l : tsSLList T) : tsSLList T :=
  item :: l.

(** ** resTable *)

Section ResTable.

Context {ID : Type} `{Identifier ID}.
(** "class T must derive from class ID": [idOf] is the conversion of a
    record to its identifier. *)
Context {T : Type} (idOf : T -> ID).

Record resTable : Type := mk_resTable {
  pTable : list (tsSLList T);
  nextSplitIndex : N;
  hashIxMask : N;
  hashIxSplitMask : N;
  nInUse : N
}.

(** [this->pTable[i]]; an index outside the array reads as an empty chain. *)
Definition bucket (t : resTable) (i : N) : tsSLList T :=
  default [] (pTable t !! N.to_nat i).

(** [this->pTable[i] = l]; nothing is written outside the array. *)
Definition set_bucket (t : resTable) (i : N) (l : tsSLList T) : resTable :=
  mk_resTable (<[N.to_nat i := l]> (pTable t)) (nextSplitIndex t)
    (hashIxMask t) (hashIxSplitMask t) (nInUse t).

(** [resTable::resTable ()], when the allocation succeeds *)
Definition resTable_init : resTable :=
  let mask := to_unsigned (N.shiftl 1 (minIndexBitWidth ID) - 1) in
  let splitMask := to_unsigned (N.shiftl 1 (minIndexBitWidth ID + 1) - 1) in
  let newTableSize := to_unsigned (splitMask + 1) in
  mk_resTable (replicate (N.to_nat newTableSize) []) 0 mask splitMask 0.

(** [resTable::resTable ()]; [None] stands for the exception
    [dynamicMemoryAllocationFailed]. *)
Definition resTable_new (alloc_ok : bool) : option resTable :=
  if alloc_ok then Some resTable_init else None.

(** [resTable::hash] *)
Definition hash (t : resTable) (idIn : ID) : N :=
  let h := id_hash idIn in
  let h0 := N.land h (hashIxMask t) in
  if nextSplitIndex t <=? h0 then h0
  else N.land h (hashIxSplitMask t).

(** [resTable::tableSize] *)
Definition tableSize (t : resTable) : N :=
  to_unsigned ((hashIxMask t + 1) + nextSplitIndex t).

(** [resTable::numEntriesInstalled] *)
Definition numEntriesInstalled (t : resTable) : N := nInUse t.

(** [resTable::find] *)
Fixpoint find (list : tsSLList T) (idIn : ID) : option T :=
  match list with
  | [] => None
  | pItem :: rest =>
      if id_eqb (idOf pItem) idIn then Some pItem else find rest idIn
  end.

(** The chain walk of [resTable::findDelete]: the record found, if any, and
    the chain without it. *)
Fixpoint findDelete_chain (list : tsSLList T) (idIn : ID)
    : option T * tsSLList T :=
  match list with
  | [] => (None, [])
  | pItem :: rest =>
      if id_eqb (idOf pItem) idIn then (Some pItem, rest)
      else let (found, rest') := findDelete_chain rest idIn in
           (found, pItem :: rest')
  end.

(** [resTable::findDelete] on the chain [this->pTable[i]] *)
Definition findDelete (t : resTable) (i : N) (idIn : ID)
    : option T * resTable :=
  match findDelete_chain (bucket t i) idIn with
  | (Some pItem, list') =>
      (Some pItem,
       mk_resTable (<[N.to_nat i := list']> (pTable t)) (nextSplitIndex t)
         (hashIxMask t) (hashIxSplitMask t) (unsigned_pred (nInUse t)))
  | (None, _) => (None, t)
  end.

(** [resTable::remove] *)
Definition remove (t : resTable) (idIn : ID) : option T * resTable :=
  findDelete t (hash t idIn) idIn.

(** [resTable::lookup] *)
Definition lookup (t : resTable) (idIn : ID) : option T :=
  find (bucket t (hash t idIn)) idIn.

(** The first part of [resTable::splitBucket]: "double the hash table when
    necessary".  [None] is the early [return] taken when the new array
    cannot be allocated. *)
Definition doubleTable (alloc_ok : bool) (t : resTable) : option resTable :=
  if hashIxMask t <? nextSplitIndex t then
    let oldTableSize := to_unsigned (hashIxSplitMask t + 1) in
    let newTableSize := to_unsigned (oldTableSize * 2) in
    if alloc_ok then
      let oldTableOccupiedSize :=
        to_unsigned ((hashIxMask t + 1) + nextSplitIndex t) in
      let pNewTable :=
        take (N.to_nat oldTableOccupiedSize) (pTable t)
        ++ replicate (N.to_nat (newTableSize - oldTableOccupiedSize)) [] in
      Some (mk_resTable pNewTable 0 (hashIxSplitMask t)
              (unsigned_pred newTableSize) (nInUse t))
    else None
  else Some t.

(** The loop at the end of [resTable::splitBucket]: every record taken
    from [tmp] is pushed on the chain its identifier now hashes to. *)
Fixpoint rehash (tmp : tsSLList T) (t : resTable) : resTable :=
  match tmp with
  | [] => t
  | pItem :: tmp' =>
      let index := hash t (idOf pItem) in
      rehash tmp' (set_bucket t index (tsSLList_add pItem (bucket t index)))
  end.

(** The second part of [resTable::splitBucket]: "rehash only the items in
    the split bucket". *)
Definition splitOne (t : resTable) : resTable :=
  let tmp := bucket t (nextSplitIndex t) in
  let t' := mk_resTable (<[N.to_nat (nextSplitIndex t) := []]> (pTable t))
              (to_unsigned (nextSplitIndex t + 1))
              (hashIxMask t) (hashIxSplitMask t) (nInUse t) in
  rehash tmp t'.

(** [resTable::splitBucket] *)
Definition splitBucket (alloc_ok : bool) (t : resTable) : resTable :=
  match doubleTable alloc_ok t with
  | None => t
  | Some t' => splitOne t'
  end.

(** The state in which [resTable::add] looks for its record: the table
    after the split step taken when [nInUse > tableSize ()]. *)
Definition add_split (alloc_ok : bool) (t : resTable) : resTable :=
  if tableSize t <? nInUse t then splitBucket alloc_ok t else t.

(** [resTable::add]: the status, -1 "(id exists in table)" or 0
    "(success)", and the table afterwards.  [alloc_ok] tells whether an
    allocation made by the split step succeeds. *)
Definition add (alloc_ok : bool) (t : resTable) (res : T) : Z * resTable :=
  let t1 := add_split alloc_ok t in
  let index := hash t1 (idOf res) in
  match find (bucket t1 index) (idOf res) with
  | Some _ => ((-1)%Z, t1)
  | None =>
      (0%Z,
       mk_resTable
         (<[N.to_nat index := tsSLList_add res (bucket t1 index)]> (pTable t1))
         (nextSplitIndex t1) (hashIxMask t1) (hashIxSplitMask t1)
         (to_unsigned (nInUse t1 + 1)))
  end.

(** The records linked into the chains, chain after chain. *)
Definition records (t : resTable) : list T := concat (pTable t).

End ResTable.

Arguments resTable T : clear implicits.
Arguments resTable_init ID {_} T.
Arguments resTable_new ID {_} T alloc_ok.

(** A record of an integer keyed table: the identifier it derives from and
    the rest of the object. *)
Record intRes (MIN_INDEX_WIDTH MAX_ID_WIDTH : N) (A : Type) := mk_intRes {
  intRes_id : intId MIN_INDEX_WIDTH MAX_ID_WIDTH;
  intRes_data : A
}.
Arguments mk_intRes {_ _ _} _ _.
Arguments intRes_id {_ _ _} _.
Arguments intRes_data {_ _ _} _.

(** A record of a string keyed table. *)
Record stringRes (A : Type) := mk_stringRes {
  stringRes_id : stringId;
  stringRes_data : A
}.
Arguments mk_stringRes {_} _ _.
Arguments stringRes_id {_} _.
Arguments stringRes_data {_} _.

(** ** Sequences of table operations *)

Section Operations.

Context {ID : Type} `{Identifier ID} {T : Type} (idOf : T -> ID).

Inductive tableOp : Type :=
  | op_add (alloc_ok : bool) (res : T)
  | op_remove (idIn : ID).

Definition run_op (t : resTable T) (o : tableOp) : resTable T :=
  match o with
  | op_add alloc_ok res => snd (add idOf alloc_ok t res)
  | op_remove idIn => snd (remove idOf t idIn)
  end.

Definition run_ops (ops : list tableOp) (t : resTable T) : resTable T :=
  fold_left run_op ops t.

(** *** The invariants of a table *)

(** The masks select [k] and [k + 1] bits, the split index lies in the
    current round, and the array holds [2 ^ (k + 1)] chain heads. *)
Definition masks_ok (k : N) (t : resTable T) : Prop :=
  k + 1 <= 31 /\
  hashIxMask t = N.ones k /\
  hashIxSplitMask t = N.ones (k + 1) /\
  nextSplitIndex t <= 2 ^ k /\
  N.of_nat (length (pTable t)) = 2 ^ (k + 1).

(** Every record is on the chain its identifier hashes to. *)
Definition consistent (t : resTable T) : Prop :=
  forall (i : nat) (l : tsSLList T) (r : T),
    pTable t !! i = Some l -> r ∈ l -> hash t (idOf r) = N.of_nat i.

(** [nInUse] counts the records on the chains. *)
Definition counted (t : resTable T) : Prop :=
  nInUse t = N.of_nat (sum_list (length <$> pTable t)).

Definition table_inv (t : resTable T) : Prop :=
  (exists k, masks_ok k t) /\ consistent t /\ counted t.

(** No record of the table has an identifier equal to [idIn]. *)
Definition absent (t : resTable T) (idIn : ID) : Prop :=
  forall r, r ∈ records t -> id_eqb (idOf r) idIn = false.

End Operations.

(** ** chronIntIdResTable *)

(** [chronIntIdRes<ITEM>]: a record with a chronological identifier. *)
Record chronIntIdRes (A : Type) := mk_chronIntIdRes {
  chron_id : chronIntId;
  chron_data : A
}.
Arguments mk_chronIntIdRes {_} _ _.
Arguments chron_id {_} _.
Arguments chron_data {_} _.

Definition UINT_MAX : N := 2 ^ UINT_WIDTH - 1.

(** [chronIntIdRes<ITEM>::chronIntIdRes ()] *)
Definition chronIntIdRes_new {A : Type} (data : A) : chronIntIdRes A :=
  mk_chronIntIdRes (mk_intId UINT_MAX) data.

(** [chronIntIdRes<ITEM>::setId] *)
Definition setId {A : Type} (item : chronIntIdRes A) (newId : N)
    : chronIntIdRes A :=
  mk_chronIntIdRes (mk_intId newId) (chron_data item).

Record chronIntIdResTable (A : Type) := mk_chronIntIdResTable {
  chron_table : resTable (chronIntIdRes A);
  allocId : N
}.
Arguments mk_chronIntIdResTable {_} _ _.
Arguments chron_table {_} _.
Arguments allocId {_} _.

(** [chronIntIdResTable<ITEM>::chronIntIdResTable ()] *)
Definition chronIntIdResTable_init (A : Type) : chronIntIdResTable A :=
  mk_chronIntIdResTable (resTable_init chronIntId (chronIntIdRes A)) 1.

(** [chronIntIdResTable<ITEM>::add]: the loop
<<
    do {
        item.chronIntIdRes<ITEM>::setId (allocId++);
        status = this->resTable<ITEM,chronIntId>::add (item);
    }
    while (status);
>>
    run for at most [fuel] rounds.  [allocs n] tells whether an allocation
    made by the split step of round [n] succeeds.  The result is the table
    and the item with the identifier it was given. *)
Fixpoint chronIntIdResTable_add {A : Type} (fuel : nat) (allocs : nat -> bool)
    (round : nat) (this : chronIntIdResTable A) (item : chronIntIdRes A)
    : option (chronIntIdResTable A * chronIntIdRes A) :=
  match fuel with
  | O => None
  | S fuel' =>
      let item' := setId item (allocId this) in
      let allocId' := to_unsigned (allocId this + 1) in
      let (status, table') :=
        add chron_id (allocs round) (chron_table this) item' in
      let this' := mk_chronIntIdResTable table' allocId' in
      if (status =? 0)%Z then Some (this', item')
      else chronIntIdResTable_add fuel' allocs (S round) this' item'
  end.

(** Some record of the table has the chronological identifier [n]. *)
Definition id_live {A : Type} (t : resTable (chronIntIdRes A)) (n : N)
    : bool :=
  existsb (fun r => id (chron_id r) =? n) (records t).

(** The chronological table is well formed: its table satisfies the
    invariants and the counter is a value of type [unsigned]. *)
Definition chron_inv {A : Type} (this : chronIntIdResTable A) : Prop :=
  table_inv chron_id (chron_table this) /\ allocId this < 2 ^ UINT_WIDTH.

(** One execution of the body of the loop of [integerHash] with the width
    already halved. *)
Definition fold_step (width hashid : N) : N :=
  N.lxor hashid (N.shiftr hashid width).

(** ** Concrete tables used in the examples below *)

(** A record with integer identifier [n] of a table keyed by
    [intId<unsigned>] (MIN_INDEX_WIDTH = 4, MAX_ID_WIDTH = 32). *)
Definition r432 (n : N) : intRes 4 32 unit := mk_intRes (mk_intId n) tt.

(** The table obtained from an empty one by adding records with the
    identifiers 0, 1, ..., n - 1. *)
Definition table432 (n : nat) : resTable (intRes 4 32 unit) :=
  run_ops intRes_id
    (List.map (fun i => op_add true (r432 (N.of_nat i))) (seq 0 n))
    (resTable_init (intId 4 32) (intRes 4 32 unit)).

(** A string identifier that refers to the given text. *)
Definition stringId_of (s : string) : stringId :=
  mk_stringId (Some (list_byte_of_string s)) copyString.

(** A string identifier with a null backing pointer. *)
Definition null_stringId : stringId := mk_stringId None refString.

(** ** Further operations of the table *)

Section ResTableMore.

Context {ID : Type} `{Identifier ID} {T : Type} (idOf : T -> ID).

(** The inner loop of [resTable::verify] on one chain: [None] when the
    assertion [index == i] fails, otherwise the count of the records. *)
Fixpoint verify_chain (t : resTable T) (i : N) (pItem : tsSLList T)
    (count : N) : option N :=
  match pItem with
  | [] => Some count
  | item :: rest =>
      if hash t (idOf item) =? i
      then verify_chain t i rest (to_unsigned (count + 1))
      else None
  end.

(** One round of the outer loop of [resTable::verify]. *)
Definition verify_bucket (t : resTable T) (total : option N) (i : nat)
    : option N :=
  match total with
  | None => None
  | Some total =>
      match verify_chain t (N.of_nat i) (bucket t (N.of_nat i)) 0 with
      | None => None
      | Some count => Some (to_unsigned (total + count))
      end
  end.

(** [resTable::verify]: [true] when no assertion fails. *)
Definition verify (t : resTable T) : bool :=
  let N := tableSize t in
  match fold_left (verify_bucket t) (seq 0 (N.to_nat N)) (Some 0) with
  | None => false
  | Some total => total =? nInUse t
  end.

(** [resTable::traverseConst].  The member function [pCB] cannot change
    its record; what it does is recorded in a state of type [S]. *)
Definition traverseConst {S : Type} (pCB : T -> S -> S) (t : resTable T)
    (s : S) : S :=
  let N := tableSize t in
  fold_left
    (fun s i => fold_left (fun s pItem => pCB pItem s) (bucket t (N.of_nat i)) s)
    (seq 0 (N.to_nat N)) s.

(** [resTableIter]: the position in the current chain, given by the
    records from there on, and the index of the next chain.  The table is
    passed to [next]. *)
Record resTableIter : Type := mk_resTableIter {
  iter : tsSLList T;
  index : N
}.

(** [resTableIter::resTableIter] *)
Definition resTableIter_init (t : resTable T) : resTableIter :=
  mk_resTableIter (bucket t 0) 1.

(** The [while ( true )] loop of [resTableIter::next]; at most
    [N - index] chains are left to look at. *)
Fixpoint resTableIter_scan (fuel : nat) (t : resTable T) (ix : N)
    : option T * resTableIter :=
  if tableSize t <=? ix then (None, mk_resTableIter [] ix)
  else
    match fuel with
    | O => (None, mk_resTableIter [] ix)
    | S fuel' =>
        let ix' := to_unsigned (ix + 1) in
        match bucket t ix with
        | p :: rest => (Some p, mk_resTableIter rest ix')
        | [] => resTableIter_scan fuel' t ix'
        end
    end.

(** [resTableIter::next] *)
Definition next (t : resTable T) (it : resTableIter)
    : option T * resTableIter :=
  match iter it with
  | p :: rest => (Some p, mk_resTableIter rest (index it))
  | [] =>
      resTableIter_scan (N.to_nat (tableSize t - index it)) t (index it)
  end.

(** The records returned by [calls] calls of [next], up to the first null,
    and whether a null was returned. *)
Fixpoint drain (calls : nat) (t : resTable T) (it : resTableIter)
    : list T * bool :=
  match calls with
  | O => ([], false)
  | S calls' =>
      match next t it with
      | (None, _) => ([], true)
      | (Some p, it') =>
          let (l, done) := drain calls' t it' in (p :: l, done)
      end
  end.

(** The chains [pTable[start]], ..., [pTable[start + n - 1]]. *)
Definition chains_from (t : resTable T) (start n : nat)
    : list (tsSLList T) :=
  (fun i => bucket t (N.of_nat i)) <$> seq start n.

(** No two records of the list have identifiers that compare equal. *)
Fixpoint distinct_ids (l : list T) : Prop :=
  match l with
  | [] => True
  | x :: l' =>
      (forall y, y ∈ l' -> id_eqb (idOf x) (idOf y) = false) /\
      distinct_ids l'
  end.

(** Every split allocation of the sequence succeeds. *)
Definition allocs_succeed (ops : list (tableOp (ID := ID) (T := T))) : Prop :=
  Forall (fun o => match o with
                   | op_add alloc_ok _ => alloc_ok = true
                   | op_remove _ => True
                   end) ops.

End ResTableMore.

Arguments resTableIter T : clear implicits.

(** An identifier class whose [operator ==] is symmetric and transitive
    and whose [hash] agrees on identifiers that compare equal. *)
Class LawfulIdentifier (ID : Type) `{Identifier ID} : Prop := {
  id_eqb_sym : forall a b : ID, id_eqb a b = id_eqb b a;
  id_eqb_trans : forall a b c : ID,
    id_eqb a b = true -> id_eqb b c = true -> id_eqb a c = true;
  id_hash_eqb : forall a b : ID, id_eqb a b = true -> id_hash a = id_hash b
}.

(** ** Sequences of operations on a chronological table *)

Inductive chronOp (A : Type) : Type :=
  | cop_add (allocs : nat -> bool) (data : A)
  | cop_remove (idIn : chronIntId).
Arguments cop_add {_} _ _.
Arguments cop_remove {_} _.

(** Runs the operations; every insertion is given [fuel] rounds, and a new
    item is made for it by [chronIntIdRes ()].  The result is the table and
    the identifiers given out, first insertion first; [None] when an
    insertion runs out of rounds. *)
Fixpoint chron_run {A : Type} (fuel : nat) (ops : list (chronOp A))
    (this : chronIntIdResTable A) : option (chronIntIdResTable A * list N) :=
  match ops with
  | [] => Some (this, [])
  | cop_add allocs data :: ops' =>
      match chronIntIdResTable_add fuel allocs 0 this
              (chronIntIdRes_new data) with
      | None => None
      | Some (this', item) =>
          match chron_run fuel ops' this' with
          | None => None
          | Some (this'', ids) => Some (this'', id (chron_id item) :: ids)
          end
      end
  | cop_remove idIn :: ops' =>
      chron_run fuel ops'
        (mk_chronIntIdResTable (snd (remove chron_id (chron_table this) idIn))
           (allocId this))
  end.

(** The number of insertions of a sequence. *)
Fixpoint count_adds {A : Type} (ops : list (chronOp A)) : nat :=
  match ops with
  | [] => 0%nat
  | cop_add _ _ :: ops' => S (count_adds ops')
  | cop_remove _ :: ops' => count_adds ops'
  end.

(** ** The steps of the string hash *)

(** One statement of the body of the loop of [stringId::hash]: the
    accumulator of the lane takes in the character [c]. *)
Definition lane_step (lane : nat) (h : lanes) (c : N) : lanes :=
  match lane with
  | 0%nat => mk_lanes (permuted (N.lxor (h0 h) c)) (h1 h) (h2 h) (h3 h)
  | 1%nat => mk_lanes (h0 h) (permuted (N.lxor (h1 h) c)) (h2 h) (h3 h)
  | 2%nat => mk_lanes (h0 h) (h1 h) (permuted (N.lxor (h2 h) c)) (h3 h)
  | _ => mk_lanes (h0 h) (h1 h) (h2 h) (permuted (N.lxor (h3 h) c))
  end.

(** The lane of the next statement. *)
Definition next_lane (lane : nat) : nat :=
  match lane with
  | 0%nat => 1%nat
  | 1%nat => 2%nat
  | 2%nat => 3%nat
  | _ => 0%nat
  end.

(** The four accumulators hold bytes. *)
Definition lanes_bytes (h : lanes) : Prop :=
  h0 h < 256 /\ h1 h < 256 /\ h2 h < 256 /\ h3 h < 256.

(** * Properties *)

(** ** The integer mixer *)

(** The structural recursion of [integerHash_loop] obeys the equation of
    the [do ... while] loop: halve the width, fold, and go round again
    while the width exceeds [MIN_INDEX_WIDTH]. *)
Lemma integerHash_do_eq (MIN width hashid : N) :
  integerHash_do MIN width hashid =
    let width' := N.shiftr width 1 in
    let hashid' := fold_step width' hashid in
    if MIN <? width'
    then let (h, n) := integerHash_do MIN width' hashid' in (h, S n)
    else (hashid', 1%nat).
Proof.
  destruct width as [|[w|w|]]; unfold fold_step;
    cbn [integerHash_do integerHash_loop].
  - change (N.shiftr 0 1) with 0.
    destruct (N.ltb_spec MIN 0); [lia | reflexivity].
  - change (N.shiftr (N.pos w~1) 1) with (N.pos w). reflexivity.
  - change (N.shiftr (N.pos w~0) 1) with (N.pos w). reflexivity.
  - change (N.shiftr 1 1) with 0.
    destruct (N.ltb_spec MIN 0); [lia | reflexivity].
Qed.

Lemma integerHash_4_32 (x : N) :
  integerHash 4 32 x = fold_step 4 (fold_step 8 (fold_step 16 x)).
Proof. reflexivity. Qed.

Lemma lxor_swap_middle (a b c d : N) :
  N.lxor (N.lxor a b) (N.lxor c d) = N.lxor (N.lxor a c) (N.lxor b d).
Proof.
  apply N.bits_inj; intro n. rewrite !N.lxor_spec.
  destruct (N.testbit a n), (N.testbit b n), (N.testbit c n),
    (N.testbit d n); reflexivity.
Qed.

Lemma fold_step_lxor (w a b : N) :
  fold_step w (N.lxor a b) = N.lxor (fold_step w a) (fold_step w b).
Proof.
  unfold fold_step. rewrite N.shiftr_lxor. apply lxor_swap_middle.
Qed.

Lemma integerHash_4_32_lxor (a b : N) :
  integerHash 4 32 (N.lxor a b) =
  N.lxor (integerHash 4 32 a) (integerHash 4 32 b).
Proof. rewrite !integerHash_4_32, !fold_step_lxor. reflexivity. Qed.

(** A single set bit [i] below 32 shows up at position [i mod 4] of the
    mixed value. *)
Lemma integerHash_4_32_pow2 (i : N) :
  i < 32 -> N.testbit (integerHash 4 32 (2 ^ i)) (i mod 4) = true.
Proof.
  intros Hi.
  assert (Hall : forallb
            (fun j => N.testbit (integerHash 4 32 (2 ^ j)) (j mod 4))
            (List.map N.of_nat (seq 0 32)) = true) by (vm_compute; reflexivity).
  rewrite forallb_forall in Hall. apply Hall.
  apply in_map_iff. exists (N.to_nat i). split; [lia |].
  apply in_seq. lia.
Qed.

(** C8.  For the mixer with (MIN_INDEX_WIDTH, MAX_ID_WIDTH) = (4, 32): two
    32 bit inputs that differ in exactly one bit give outputs that differ
    when masked to their low [k] bits, for every [k] from 4 to 32. *)
Theorem integerHash_avalanche (x y i k : N) :
  x < 2 ^ 32 -> y < 2 ^ 32 -> N.lxor x y = 2 ^ i ->
  4 <= k <= 32 ->
  N.land (integerHash 4 32 x) (N.ones k) <>
  N.land (integerHash 4 32 y) (N.ones k).
Proof.
  intros Hx Hy Hxy Hk Heq.
  assert (Hi : i < 32).
  { destruct (N.lt_ge_cases i 32) as [|Hge]; [assumption | exfalso].
    assert (Hb : N.testbit (N.lxor x y) i = true)
      by (rewrite Hxy; apply N.pow2_bits_true).
    rewrite N.lxor_spec in Hb.
    rewrite <- (N.mod_small x (2 ^ 32)), <- (N.mod_small y (2 ^ 32)) in Hb
      by assumption.
    rewrite !N.mod_pow2_bits_high in Hb by assumption. discriminate. }
  assert (Hy' : y = N.lxor x (2 ^ i)).
  { rewrite <- Hxy, <- N.lxor_assoc, N.lxor_nilpotent, N.lxor_0_l.
    reflexivity. }
  rewrite Hy', integerHash_4_32_lxor in Heq.
  pose proof (integerHash_4_32_pow2 i Hi) as Hbit.
  assert (Hj : i mod 4 < k) by (pose proof (N.mod_lt i 4); lia).
  apply (f_equal (fun v => N.testbit v (i mod 4))) in Heq.
  rewrite !N.land_spec, N.lxor_spec, Hbit, N.ones_spec_low in Heq
    by assumption.
  destruct (N.testbit (integerHash 4 32 x) (i mod 4)); discriminate.
Qed.

Lemma integerHash_avalanche_witness :
  N.land (integerHash 4 32 5) (N.ones 4) <>
  N.land (integerHash 4 32 (5 + 2 ^ 20)) (N.ones 4).
Proof.
  apply (integerHash_avalanche 5 (5 + 2 ^ 20) 20 4);
    [ reflexivity | reflexivity | reflexivity | lia ].
Defined.

(** C6, as the specification states it, fails: with
    MIN_INDEX_WIDTH = MAX_ID_WIDTH = 8 the body runs once and 16 is mixed
    to 17. *)
Lemma integerHash_degenerate_counterexample :
  8 <= 8 /\
  integerHash_trips 8 8 16 <> 0%nat /\
  integerHash 8 8 16 <> 16.
Proof. split_and!; [lia | vm_compute; discriminate | vm_compute; discriminate]. Qed.

(** C6, amended.  When MIN_INDEX_WIDTH >= MAX_ID_WIDTH the body of the
    [do ... while] loop runs exactly once, and the mixer returns
    [v ^ (v >> (MAX_ID_WIDTH >> 1))].  MAX_ID_WIDTH is below 128, twice
    the width of [resTableIndex], so that the shift is defined. *)
Theorem integerHash_degenerate (MIN MAX v : N) :
  MAX < 2 * (sizeof_resTableIndex * CHAR_BIT) ->
  MAX <= MIN ->
  integerHash_trips MIN MAX v = 1%nat /\
  integerHash MIN MAX v = N.lxor v (N.shiftr v (N.shiftr MAX 1)).
Proof.
  intros _ Hle. unfold integerHash_trips, integerHash.
  rewrite integerHash_do_eq. cbv zeta.
  assert (Hhalf : N.shiftr MAX 1 <= MIN).
  { rewrite N.shiftr_div_pow2. change (2 ^ 1) with 2.
    pose proof (N.Div0.div_le_upper_bound MAX 2 MAX). lia. }
  destruct (N.ltb_spec MIN (N.shiftr MAX 1)); [lia |].
  split; reflexivity.
Qed.

Lemma integerHash_degenerate_witness :
  integerHash_trips 8 8 16 = 1%nat /\
  integerHash 8 8 16 = N.lxor 16 (N.shiftr 16 (N.shiftr 8 1)).
Proof. apply (integerHash_degenerate 8 8 16); [reflexivity | lia]. Defined.

(** ** The string hash *)

Lemma stringId_hash_null (a : allocationType) :
  stringId_hash (mk_stringId None a) = 0.
Proof. reflexivity. Qed.

(** With [stringIdMaxIndexWidth = sizeof ( unsigned )], that is 4, the
    mixer folds the composite once, by two bits. *)
Lemma stringId_hash_some (p : list byte) (a : allocationType) :
  stringId_hash (mk_stringId (Some p) a) = fold_step 2 (stringComposite p).
Proof. reflexivity. Qed.

Lemma stringId_hash_spec_some (p : list byte) (a : allocationType) :
  stringId_hash_spec (mk_stringId (Some p) a) =
  fold_step 8 (fold_step 16 (stringComposite p)).
Proof. reflexivity. Qed.

(** C5.  The string "b" has the composite 96; [stringId::hash] returns
    96 ^ (96 >> 2) = 120 for it, whereas the mixer with
    (MIN_INDEX_WIDTH, MAX_ID_WIDTH) = (8, 32) returns 96. *)
Theorem stringId_hash_width_slip :
  stringComposite (list_byte_of_string "b") = 96 /\
  stringId_hash (stringId_of "b") = 120 /\
  stringId_hash_spec (stringId_of "b") = 96.
Proof. repeat split; vm_compute; reflexivity. Qed.

(** ** The table *)

Section ResTableFacts.

Context {ID : Type} `{Identifier ID} {T : Type} (idOf : T -> ID).

Lemma find_Some (l : tsSLList T) (idIn : ID) (r : T) :
  find idOf l idIn = Some r -> r ∈ l /\ id_eqb (idOf r) idIn = true.
Proof.
  induction l as [|x l IH]; cbn; [discriminate |].
  destruct (id_eqb (idOf x) idIn) eqn:E.
  - intros [= <-]. split; [left | assumption].
  - intros Hf. destruct (IH Hf). split; [right |]; assumption.
Qed.

Lemma find_None (l : tsSLList T) (idIn : ID) :
  find idOf l idIn = None <-> forall r, r ∈ l -> id_eqb (idOf r) idIn = false.
Proof.
  induction l as [|x l IH]; cbn.
  - split; [intros _ r Hr; inversion Hr | reflexivity].
  - destruct (id_eqb (idOf x) idIn) eqn:E.
    + split; [discriminate |]. intros Hall.
      rewrite (Hall x) in E by left. discriminate.
    + rewrite IH. split.
      * intros Hall r Hr. inversion Hr; subst; auto.
      * intros Hall r Hr. apply Hall. right. assumption.
Qed.

Lemma findDelete_chain_fst (l : tsSLList T) (idIn : ID) :
  fst (findDelete_chain idOf l idIn) = find idOf l idIn.
Proof.
  induction l as [|x l IH]; cbn; [reflexivity |].
  destruct (id_eqb (idOf x) idIn); [reflexivity |].
  destruct (findDelete_chain idOf l idIn). exact IH.
Qed.

Lemma remove_fst (t : resTable T) (idIn : ID) :
  fst (remove idOf t idIn) = lookup idOf t idIn.
Proof.
  unfold remove, findDelete, lookup.
  rewrite <- findDelete_chain_fst.
  destruct (findDelete_chain idOf _ idIn) as [[r|] l']; reflexivity.
Qed.

(** C2.  The bucket index is [h & hashIxMask] when that is at least
    [nextSplitIndex] and [h & hashIxSplitMask] otherwise, with
    [h = id.hash ()]; [lookup] and [remove] walk the chain at that index,
    and [add] looks for its record and links it at that index, computed in
    the state left by its split step. *)
Theorem bucket_index_rule (t : resTable T) (idIn : ID) (res : T)
    (alloc_ok : bool) :
  let h := id_hash idIn in
  let t1 := add_split idOf alloc_ok t in
  let b1 := hash t1 (idOf res) in
  hash t idIn =
    (if nextSplitIndex t <=? N.land h (hashIxMask t)
     then N.land h (hashIxMask t) else N.land h (hashIxSplitMask t)) /\
  lookup idOf t idIn = find idOf (bucket t (hash t idIn)) idIn /\
  remove idOf t idIn = findDelete idOf t (hash t idIn) idIn /\
  fst (add idOf alloc_ok t res) =
    match find idOf (bucket t1 b1) (idOf res) with
    | Some _ => (-1)%Z
    | None => 0%Z
    end /\
  pTable (snd (add idOf alloc_ok t res)) =
    match find idOf (bucket t1 b1) (idOf res) with
    | Some _ => pTable t1
    | None => <[N.to_nat b1 := res :: bucket t1 b1]> (pTable t1)
    end.
Proof.
  cbv zeta. repeat split; try reflexivity.
  - unfold add. destruct (find idOf _ (idOf res)); reflexivity.
  - unfold add. destruct (find idOf _ (idOf res)); reflexivity.
Qed.

Lemma to_unsigned_small (x : N) : x < 2 ^ 32 -> to_unsigned x = x.
Proof. intros Hx. apply N.mod_small. exact Hx. Qed.

Lemma unsigned_pred_small (x : N) :
  0 < x < 2 ^ 32 -> unsigned_pred x = x - 1.
Proof.
  intros Hx. unfold unsigned_pred, to_unsigned.
  change (2 ^ UINT_WIDTH) with (2 ^ 32).
  replace (x + (2 ^ 32 - 1)) with (x - 1 + 1 * 2 ^ 32) by lia.
  rewrite N.Div0.mod_add. apply N.mod_small. lia.
Qed.

Lemma pow2_le_32 (n : N) : n <= 31 -> 2 ^ n < 2 ^ 32.
Proof. intros Hn. apply N.pow_lt_mono_r; lia. Qed.

(** The state built by the constructor. *)
Lemma resTable_init_fields :
  minIndexBitWidth ID < 30 ->
  resTable_init ID T =
    mk_resTable (replicate (N.to_nat (2 ^ (minIndexBitWidth ID + 1))) [])
      0 (2 ^ minIndexBitWidth ID - 1) (2 ^ (minIndexBitWidth ID + 1) - 1) 0.
Proof.
  intros Hmin. unfold resTable_init.
  set (m := minIndexBitWidth ID) in *.
  rewrite !N.shiftl_1_l.
  pose proof (pow2_le_32 m ltac:(lia)) as H1.
  pose proof (pow2_le_32 (m + 1) ltac:(lia)) as H2.
  assert (H0 : 0 < 2 ^ (m + 1)) by (apply N.neq_0_lt_0, N.pow_nonzero; lia).
  rewrite (to_unsigned_small (2 ^ m - 1)) by lia.
  rewrite (to_unsigned_small (2 ^ (m + 1) - 1)) by lia.
  rewrite (to_unsigned_small (2 ^ (m + 1) - 1 + 1)) by lia.
  replace (2 ^ (m + 1) - 1 + 1) with (2 ^ (m + 1)) by lia.
  reflexivity.
Qed.

(** C7, amended.  For [minIndexBitWidth] below 30 (so that the shifts of
    the constructor stay within [int]), a freshly constructed table is
    empty, has [nextSplitIndex = 0] and
    [hashIxSplitMask = 2 * (hashIxMask + 1) - 1]; its bucket count
    [tableSize ()] is [1 << minIndexBitWidth], half of the
    [1 << (minIndexBitWidth + 1)] chain heads that are allocated, all of
    them empty. *)
Theorem resTable_init_state :
  minIndexBitWidth ID < 30 ->
  let t := resTable_init ID T in
  resTable_new ID T true = Some t /\
  nInUse t = 0 /\
  nextSplitIndex t = 0 /\
  hashIxSplitMask t = 2 * (hashIxMask t + 1) - 1 /\
  tableSize t = N.shiftl 1 (minIndexBitWidth ID) /\
  N.of_nat (length (pTable t)) = N.shiftl 1 (minIndexBitWidth ID + 1) /\
  Forall (fun chain => chain = []) (pTable t).
Proof.
  intros Hmin. cbv zeta. split; [reflexivity |].
  rewrite (resTable_init_fields Hmin).
  set (m := minIndexBitWidth ID) in *.
  unfold tableSize. cbn [nInUse nextSplitIndex hashIxMask hashIxSplitMask pTable].
  rewrite !N.shiftl_1_l.
  pose proof (pow2_le_32 m ltac:(lia)) as H1.
  assert (H0 : 0 < 2 ^ m) by (apply N.neq_0_lt_0, N.pow_nonzero; lia).
  assert (H3 : 2 ^ (m + 1) = 2 * 2 ^ m) by (rewrite N.pow_add_r; lia).
  rewrite (to_unsigned_small (2 ^ m - 1 + 1 + 0)) by lia.
  split_and!; try lia.
  - rewrite length_replicate. lia.
  - apply Forall_forall. intros chain Hin.
    apply elem_of_replicate in Hin. tauto.
Qed.

End ResTableFacts.

Lemma resTable_init_state_witness :
  let t := resTable_init (intId 4 32) (intRes 4 32 unit) in
  resTable_new (intId 4 32) (intRes 4 32 unit) true = Some t /\
  nInUse t = 0 /\
  nextSplitIndex t = 0 /\
  hashIxSplitMask t = 2 * (hashIxMask t + 1) - 1 /\
  tableSize t = N.shiftl 1 (minIndexBitWidth (intId 4 32)) /\
  N.of_nat (length (pTable t))
    = N.shiftl 1 (minIndexBitWidth (intId 4 32) + 1) /\
  Forall (fun chain => chain = []) (pTable t).
Proof.
  apply (@resTable_init_state (intId 4 32) _ (intRes 4 32 unit)).
  vm_compute. reflexivity.
Defined.

(** C7, as the specification states it, fails for [intId<unsigned>]: the
    fresh table has [tableSize () = 16], not [1 << (4 + 1) = 32]. *)
Lemma resTable_init_size_counterexample :
  let t := resTable_init (intId 4 32) (intRes 4 32 unit) in
  ~ (nInUse t = 0 /\
     hashIxSplitMask t = 2 * (hashIxMask t + 1) - 1 /\
     nextSplitIndex t = 0 /\
     tableSize t = N.shiftl 1 (minIndexBitWidth (intId 4 32) + 1)).
Proof.
  cbv zeta. intros (_ & _ & _ & Hsize). vm_compute in Hsize. discriminate.
Qed.

(** ** Null string identifiers *)

Lemma stringId_eqb_null_l (a b : stringId) :
  pStr a = None -> stringId_eqb a b = false.
Proof. unfold stringId_eqb. intros ->. reflexivity. Qed.

Lemma stringId_eqb_null_r (a b : stringId) :
  pStr b = None -> stringId_eqb a b = false.
Proof. unfold stringId_eqb. intros ->. destruct (pStr a); reflexivity. Qed.

(** C10.  [stringId::operator ==] is false as soon as one side has a null
    backing pointer, so a null-backed identifier is not equal to itself.  A
    record [r] with such an identifier hashes to bucket 0, is returned by
    no [lookup] and no [remove], whatever the table and the query, and
    [add] never reports it as a duplicate, even when the table already
    holds null-backed records. *)
Theorem null_stringId_unreachable {A : Type} (t : resTable (stringRes A))
    (r : stringRes A) (q other : stringId) (alloc_ok : bool) :
  pStr (stringRes_id r) = None ->
  stringId_eqb (stringRes_id r) other = false /\
  stringId_eqb other (stringRes_id r) = false /\
  stringId_eqb (stringRes_id r) (stringRes_id r) = false /\
  hash t (stringRes_id r) = 0 /\
  lookup stringRes_id t q <> Some r /\
  fst (remove stringRes_id t q) <> Some r /\
  fst (add stringRes_id alloc_ok t r) = 0%Z.
Proof.
  intros Hnull.
  assert (Hlook : lookup stringRes_id t q <> Some r).
  { intros Hf. apply find_Some in Hf as [_ Heq]. cbn in Heq.
    rewrite stringId_eqb_null_l in Heq by assumption. discriminate. }
  repeat split.
  - apply stringId_eqb_null_l; assumption.
  - apply stringId_eqb_null_r; assumption.
  - apply stringId_eqb_null_l; assumption.
  - unfold hash. cbn. unfold stringId_hash. rewrite Hnull.
    rewrite !N.land_0_l. destruct (nextSplitIndex t <=? 0); reflexivity.
  - exact Hlook.
  - rewrite remove_fst. exact Hlook.
  - unfold add.
    set (t1 := add_split stringRes_id alloc_ok t).
    assert (Hnone : find stringRes_id (bucket t1 (hash t1 (stringRes_id r)))
                      (stringRes_id r) = None).
    { apply find_None. intros r' _. cbn.
      apply stringId_eqb_null_r; assumption. }
    rewrite Hnone. reflexivity.
Qed.

Lemma null_stringId_unreachable_witness :
  let r := mk_stringRes null_stringId 7 in
  let t := snd (add stringRes_id true
                  (resTable_init stringId (stringRes N)) r) in
  bucket t 0 = [r] /\
  (stringId_eqb (stringRes_id r) (stringId_of "pv") = false /\
   stringId_eqb (stringId_of "pv") (stringRes_id r) = false /\
   stringId_eqb (stringRes_id r) (stringRes_id r) = false /\
   hash t (stringRes_id r) = 0 /\
   lookup stringRes_id t null_stringId <> Some r /\
   fst (remove stringRes_id t null_stringId) <> Some r /\
   fst (add stringRes_id true t r) = 0%Z).
Proof.
  split; [reflexivity |].
  apply (null_stringId_unreachable _ (mk_stringRes null_stringId 7)
           null_stringId (stringId_of "pv") true).
  reflexivity.
Defined.

(** ** Chains and arrays of chains *)

Section Chains.

Context {T : Type}.
Implicit Types (tbl : list (tsSLList T)) (l : tsSLList T).

Lemma sum_length_concat tbl :
  sum_list (length <$> tbl) = length (concat tbl).
Proof.
  induction tbl as [|l tbl IH]; cbn; [reflexivity |].
  rewrite length_app, IH. reflexivity.
Qed.

(** Replacing the chain [l] at index [i] by [l'] trades the records of [l]
    for those of [l']. *)
Lemma concat_insert tbl (i : nat) l l' :
  tbl !! i = Some l ->
  concat (<[i := l']> tbl) ++ l ≡ₚ concat tbl ++ l'.
Proof.
  intros Hi.
  assert (Hlt : (i < length tbl)%nat) by (eapply lookup_lt_Some; eassumption).
  rewrite insert_take_drop by assumption.
  rewrite <- (take_drop_middle tbl i l Hi) at 3.
  rewrite !concat_app, !concat_cons, <- !app_assoc.
  apply Permutation_app_head.
  rewrite (Permutation_app_comm (concat (drop (S i) tbl)) l).
  rewrite (Permutation_app_comm (concat (drop (S i) tbl)) l').
  rewrite !app_assoc. apply Permutation_app_tail, Permutation_app_comm.
Qed.

Lemma concat_push tbl (i : nat) l (x : T) :
  tbl !! i = Some l ->
  concat (<[i := x :: l]> tbl) ≡ₚ x :: concat tbl.
Proof.
  intros Hi. apply (Permutation_app_inv_r l).
  rewrite (concat_insert tbl i l (x :: l) Hi).
  change (x :: concat tbl) with ([x] ++ concat tbl).
  change (x :: l) with ([x] ++ l).
  rewrite !app_assoc. apply Permutation_app_tail, Permutation_app_comm.
Qed.

Lemma concat_detach tbl (i : nat) l :
  tbl !! i = Some l ->
  concat (<[i := []]> tbl) ++ l ≡ₚ concat tbl.
Proof.
  intros Hi. rewrite (concat_insert tbl i l [] Hi), app_nil_r. reflexivity.
Qed.

Lemma elem_of_concat tbl (x : T) :
  x ∈ concat tbl <-> exists i l, tbl !! i = Some l /\ x ∈ l.
Proof.
  induction tbl as [|l0 tbl IH]; cbn.
  - split; [intros Hx; inversion Hx | intros (i & l & Hi & _)].
    destruct i; discriminate.
  - rewrite elem_of_app, IH. split.
    + intros [Hx | (i & l & Hi & Hx)].
      * exists 0%nat, l0. split; [reflexivity | assumption].
      * exists (S i), l. split; assumption.
    + intros (i & l & Hi & Hx). destruct i as [|i].
      * injection Hi as ->. left; assumption.
      * right. exists i, l. split; assumption.
Qed.

End Chains.

(** ** Arithmetic of the masks *)

Lemma mod_pow2_succ (h k : N) :
  h mod 2 ^ (k + 1) = h mod 2 ^ k \/
  h mod 2 ^ (k + 1) = h mod 2 ^ k + 2 ^ k.
Proof.
  rewrite N.pow_add_r, N.Div0.mod_mul_r. change (2 ^ 1) with 2.
  pose proof (N.mod_lt (h / 2 ^ k) 2 ltac:(discriminate)) as Hlt.
  generalize dependent ((h / 2 ^ k) mod 2). intros c Hc.
  assert (Hc' : c = 0 \/ c = 1) by lia.
  destruct Hc' as [-> | ->]; [left | right]; lia.
Qed.

Lemma pow2_pos (k : N) : 0 < 2 ^ k.
Proof. apply N.neq_0_lt_0, N.pow_nonzero. lia. Qed.

Lemma pow2_succ (k : N) : 2 ^ (k + 1) = 2 * 2 ^ k.
Proof. rewrite N.pow_add_r. change (2 ^ 1) with 2. lia. Qed.

Lemma ones_pow2 (k : N) : N.ones k = 2 ^ k - 1.
Proof. rewrite N.ones_equiv. lia. Qed.

(** ** Invariants of the table *)

Section ResTableInvariants.

Context {ID : Type} `{Identifier ID} {T : Type} (idOf : T -> ID).
Implicit Types (t : resTable T) (idIn : ID).

Lemma hash_fields t t' idIn :
  nextSplitIndex t' = nextSplitIndex t ->
  hashIxMask t' = hashIxMask t ->
  hashIxSplitMask t' = hashIxSplitMask t ->
  hash t' idIn = hash t idIn.
Proof. unfold hash. intros -> -> ->. reflexivity. Qed.

(** With well-formed masks the bucket index is a remainder modulo the
    size of the current round or of the next one. *)
Lemma hash_mod k t idIn :
  masks_ok k t ->
  hash t idIn =
    if nextSplitIndex t <=? id_hash idIn mod 2 ^ k
    then id_hash idIn mod 2 ^ k else id_hash idIn mod 2 ^ (k + 1).
Proof.
  intros (_ & Hm & Hs & _). unfold hash.
  rewrite Hm, Hs, !N.land_ones. reflexivity.
Qed.

Lemma hash_lt k t idIn :
  masks_ok k t -> hash t idIn < 2 ^ k + nextSplitIndex t.
Proof.
  intros Hok. rewrite (hash_mod k) by assumption.
  pose proof (N.mod_lt (id_hash idIn) (2 ^ k)) as Hlt.
  pose proof (pow2_pos k).
  destruct (N.leb_spec (nextSplitIndex t) (id_hash idIn mod 2 ^ k));
    [lia |].
  destruct (mod_pow2_succ (id_hash idIn) k) as [-> | ->]; lia.
Qed.

Lemma hash_in_range k t idIn :
  masks_ok k t -> (N.to_nat (hash t idIn) < length (pTable t))%nat.
Proof.
  intros Hok. pose proof (hash_lt k t idIn Hok).
  destruct Hok as (_ & _ & _ & Hn & Hlen).
  rewrite pow2_succ in Hlen. lia.
Qed.

Lemma bucket_lookup t (i : N) :
  (N.to_nat i < length (pTable t))%nat ->
  pTable t !! N.to_nat i = Some (bucket t i).
Proof.
  intros Hi. unfold bucket.
  destruct (pTable t !! N.to_nat i) as [l|] eqn:E; [reflexivity |].
  apply lookup_ge_None in E. lia.
Qed.

Lemma masks_ok_fields k t t' :
  nextSplitIndex t' = nextSplitIndex t ->
  hashIxMask t' = hashIxMask t ->
  hashIxSplitMask t' = hashIxSplitMask t ->
  length (pTable t') = length (pTable t) ->
  masks_ok k t -> masks_ok k t'.
Proof. unfold masks_ok. intros -> -> -> ->. tauto. Qed.

Lemma consistent_insert t t' (i : nat) (l' : tsSLList T) :
  nextSplitIndex t' = nextSplitIndex t ->
  hashIxMask t' = hashIxMask t ->
  hashIxSplitMask t' = hashIxSplitMask t ->
  pTable t' = <[i := l']> (pTable t) ->
  (forall r, r ∈ l' -> hash t (idOf r) = N.of_nat i) ->
  consistent idOf t -> consistent idOf t'.
Proof.
  intros Hn Hm Hs Hp Hl' Hc j l r Hj Hr.
  rewrite (hash_fields t t') by assumption.
  rewrite Hp in Hj.
  apply list_lookup_insert_Some in Hj as [(<- & <- & _) | (Hne & Hj)].
  - apply Hl'; assumption.
  - eapply Hc; eassumption.
Qed.

Lemma bucket_of_nat t (i : nat) (l : tsSLList T) :
  pTable t !! i = Some l -> bucket t (N.of_nat i) = l.
Proof. unfold bucket. rewrite Nat2N.id. intros ->. reflexivity. Qed.

Lemma consistent_bucket t (i : N) (r : T) :
  consistent idOf t -> r ∈ bucket t i -> hash t (idOf r) = i.
Proof.
  intros Hc Hr. unfold bucket in Hr.
  destruct (pTable t !! N.to_nat i) as [l|] eqn:E; cbn in Hr.
  - rewrite (Hc _ _ _ E Hr). apply N2Nat.id.
  - inversion Hr.
Qed.

(** The loop of [splitBucket] links every record of [tmp] into the chain
    it hashes to and changes nothing else. *)
Lemma rehash_spec (tmp : tsSLList T) :
  forall t k,
    masks_ok k t -> consistent idOf t ->
    masks_ok k (rehash idOf tmp t) /\
    consistent idOf (rehash idOf tmp t) /\
    nextSplitIndex (rehash idOf tmp t) = nextSplitIndex t /\
    hashIxMask (rehash idOf tmp t) = hashIxMask t /\
    hashIxSplitMask (rehash idOf tmp t) = hashIxSplitMask t /\
    nInUse (rehash idOf tmp t) = nInUse t /\
    records (rehash idOf tmp t) ≡ₚ tmp ++ records t.
Proof.
  induction tmp as [|x tmp IH]; intros t k Hok Hc; cbn [rehash].
  - split_and!; try assumption; reflexivity.
  - set (ix := hash t (idOf x)).
    set (t1 := set_bucket t ix (tsSLList_add x (bucket t ix))).
    pose proof (hash_in_range k t (idOf x) Hok) as Hix. fold ix in Hix.
    assert (Hok1 : masks_ok k t1).
    { apply (masks_ok_fields k t); try reflexivity; [|assumption].
      cbn. apply length_insert. }
    assert (Hc1 : consistent idOf t1).
    { apply (consistent_insert t t1 (N.to_nat ix)
               (tsSLList_add x (bucket t ix))); try reflexivity;
        [|assumption].
      intros r Hr. rewrite N2Nat.id. apply elem_of_cons in Hr as [-> | Hr].
      - reflexivity.
      - apply consistent_bucket; assumption. }
    destruct (IH t1 k Hok1 Hc1) as (Hok' & Hc' & Hn & Hm & Hs & Hu & Hp).
    split_and!; try assumption.
    rewrite Hp. unfold records, t1, set_bucket, tsSLList_add. cbn [pTable].
    rewrite (concat_push (pTable t) (N.to_nat ix) (bucket t ix) x)
      by (apply bucket_lookup; assumption).
    symmetry. apply Permutation_middle.
Qed.

(** Rehashing the bucket at [nextSplitIndex] keeps the records on the
    chains they hash to. *)
Lemma splitOne_spec t k :
  masks_ok k t -> nextSplitIndex t < 2 ^ k -> consistent idOf t ->
  masks_ok k (splitOne idOf t) /\
  consistent idOf (splitOne idOf t) /\
  nextSplitIndex (splitOne idOf t) = nextSplitIndex t + 1 /\
  hashIxMask (splitOne idOf t) = hashIxMask t /\
  hashIxSplitMask (splitOne idOf t) = hashIxSplitMask t /\
  nInUse (splitOne idOf t) = nInUse t /\
  records (splitOne idOf t) ≡ₚ records t.
Proof.
  intros Hok Hnext Hc. unfold splitOne.
  set (nx := nextSplitIndex t).
  set (t0 := mk_resTable (<[N.to_nat nx := []]> (pTable t))
               (to_unsigned (nx + 1)) (hashIxMask t) (hashIxSplitMask t)
               (nInUse t)).
  assert (Hk : 2 ^ k < 2 ^ 32)
    by (apply pow2_le_32; destruct Hok; lia).
  assert (Hnx : nextSplitIndex t0 = nx + 1)
    by (cbn; apply to_unsigned_small; fold nx in Hnext; lia).
  assert (Hok0 : masks_ok k t0).
  { destruct Hok as (Hk1 & Hm & Hs & Hn & Hlen).
    unfold masks_ok. rewrite Hnx. cbn. rewrite length_insert.
    fold nx in Hnext. split_and!; try assumption. lia. }
  assert (Hc0 : consistent idOf t0).
  { intros j l r Hj Hr. cbn in Hj.
    apply list_lookup_insert_Some in Hj as [(_ & <- & _) | (Hne & Hj)];
      [inversion Hr |].
    pose proof (Hc j l r Hj Hr) as Hh.
    rewrite (hash_mod k) in Hh |- * by assumption.
    rewrite Hnx. fold nx in Hh.
    destruct (N.leb_spec nx (id_hash (idOf r) mod 2 ^ k)),
      (N.leb_spec (nx + 1) (id_hash (idOf r) mod 2 ^ k));
      try assumption; lia. }
  assert (Hin : (N.to_nat nx < length (pTable t))%nat).
  { destruct Hok as (_ & _ & _ & _ & Hlen). rewrite pow2_succ in Hlen.
    fold nx in Hnext. lia. }
  destruct (rehash_spec (bucket t nx) t0 k Hok0 Hc0)
    as (Hok' & Hc' & Hn & Hm & Hs & Hu & Hp).
  split_and!; try assumption.
  - rewrite Hn. exact Hnx.
  - rewrite Hp. unfold records. cbn [pTable t0].
    rewrite Permutation_app_comm.
    apply concat_detach, bucket_lookup. assumption.
Qed.

(** Doubling the array keeps every record on the chain it hashes to. *)
Lemma doubleTable_spec t k :
  masks_ok k t -> consistent idOf t ->
  nextSplitIndex t = 2 ^ k -> k + 2 <= 31 ->
  exists t',
    doubleTable true t = Some t' /\
    masks_ok (k + 1) t' /\ consistent idOf t' /\
    nextSplitIndex t' = 0 /\ nInUse t' = nInUse t /\
    records t' = records t.
Proof.
  intros Hok Hc Hnext Hk2.
  pose proof Hok as (Hk1 & Hm & Hs & Hn & Hlen).
  pose proof (pow2_pos k) as Hpos.
  pose proof (pow2_succ k) as Hk1'.
  pose proof (pow2_succ (k + 1)) as Hk2'.
  assert (Hlt : 2 ^ (k + 1 + 1) < 2 ^ 32) by (apply pow2_le_32; lia).
  unfold doubleTable.
  rewrite Hm, Hs, Hnext, !ones_pow2.
  destruct (N.ltb_spec (2 ^ k - 1) (2 ^ k)); [| lia].
  rewrite (to_unsigned_small (2 ^ (k + 1) - 1 + 1)) by lia.
  rewrite (to_unsigned_small ((2 ^ (k + 1) - 1 + 1) * 2)) by lia.
  rewrite (to_unsigned_small (2 ^ k - 1 + 1 + 2 ^ k)) by lia.
  rewrite unsigned_pred_small by lia.
  rewrite take_ge by lia.
  eexists. split; [reflexivity |].
  match goal with |- masks_ok _ ?u /\ _ => set (t' := u) end.
  assert (Hok' : masks_ok (k + 1) t').
  { unfold masks_ok. cbn. rewrite !ones_pow2, length_app, length_replicate.
    split_and!; lia. }
  split; [exact Hok' |]. split_and!.
  - intros j l r Hj Hr. cbn in Hj.
    apply lookup_app_Some in Hj as [Hj | [_ Hj]].
    + pose proof (Hc j l r Hj Hr) as Hh.
      rewrite (hash_mod k) in Hh by assumption.
      rewrite Hnext in Hh.
      pose proof (N.mod_lt (id_hash (idOf r)) (2 ^ k) ltac:(lia)).
      destruct (N.leb_spec (2 ^ k) (id_hash (idOf r) mod 2 ^ k)); [lia |].
      rewrite (hash_mod (k + 1)) by assumption. cbn [nextSplitIndex t'].
      destruct (N.leb_spec 0 (id_hash (idOf r) mod 2 ^ (k + 1))); [| lia].
      exact Hh.
    + apply lookup_replicate in Hj as [-> _]. inversion Hr.
  - reflexivity.
  - reflexivity.
  - unfold records. cbn. rewrite concat_app.
    assert (Hnil : forall n, concat (replicate n (@nil T)) = [])
      by (induction n; cbn; auto).
    rewrite Hnil. apply app_nil_r.
Qed.
(** A split step keeps the invariants and the records.  Doubling needs
    room for one more bit in the masks. *)
Lemma splitBucket_spec (alloc_ok : bool) t k :
  masks_ok k t -> consistent idOf t ->
  (hashIxMask t < nextSplitIndex t -> k + 2 <= 31) ->
  (exists k', masks_ok k' (splitBucket idOf alloc_ok t)) /\
  consistent idOf (splitBucket idOf alloc_ok t) /\
  nInUse (splitBucket idOf alloc_ok t) = nInUse t /\
  records (splitBucket idOf alloc_ok t) ≡ₚ records t.
Proof.
  intros Hok Hc Hroom.
  pose proof Hok as (Hk1 & Hm & Hs & Hn & Hlen).
  pose proof (pow2_pos k) as Hpos.
  unfold splitBucket.
  destruct (N.ltb_spec (hashIxMask t) (nextSplitIndex t)) as [Hfull | Hpart].
  - assert (Hnext : nextSplitIndex t = 2 ^ k)
      by (rewrite Hm, ones_pow2 in Hfull; lia).
    destruct alloc_ok.
    + destruct (doubleTable_spec t k Hok Hc Hnext (Hroom Hfull))
        as (t' & -> & Hok' & Hc' & Hn' & Hu' & Hp').
      assert (Hlt : nextSplitIndex t' < 2 ^ (k + 1))
        by (rewrite Hn'; apply pow2_pos).
      destruct (splitOne_spec t' (k + 1) Hok' Hlt Hc')
        as (Hok2 & Hc2 & _ & _ & _ & Hu2 & Hp2).
      split_and!; [eauto | assumption | congruence |].
      rewrite Hp2, Hp'. reflexivity.
    + unfold doubleTable.
      destruct (N.ltb_spec (hashIxMask t) (nextSplitIndex t)); [| lia].
      split_and!; [eauto | assumption | reflexivity | reflexivity].
  - assert (Hsame : doubleTable alloc_ok t = Some t).
    { unfold doubleTable.
      destruct (N.ltb_spec (hashIxMask t) (nextSplitIndex t)); [lia |].
      reflexivity. }
    rewrite Hsame.
    assert (Hlt : nextSplitIndex t < 2 ^ k)
      by (rewrite Hm, ones_pow2 in Hpart; lia).
    destruct (splitOne_spec t k Hok Hlt Hc)
      as (Hok2 & Hc2 & _ & _ & _ & Hu2 & Hp2).
    split_and!; [eauto | assumption | assumption | assumption].
Qed.

Lemma counted_perm t t' :
  nInUse t' = nInUse t -> records t' ≡ₚ records t ->
  counted t -> counted t'.
Proof.
  unfold counted, records. intros -> Hp ->.
  rewrite !sum_length_concat, Hp. reflexivity.
Qed.

(** The split step taken by [add] keeps the invariants and the records. *)
Lemma add_split_spec (alloc_ok : bool) t :
  table_inv idOf t -> nInUse t < 2 ^ 31 ->
  table_inv idOf (add_split idOf alloc_ok t) /\
  nInUse (add_split idOf alloc_ok t) = nInUse t /\
  records (add_split idOf alloc_ok t) ≡ₚ records t.
Proof.
  intros ([k Hok] & Hc & Hcnt) Hsmall. unfold add_split.
  destruct (N.ltb_spec (tableSize t) (nInUse t)) as [Hfull | _].
  - assert (Hroom : hashIxMask t < nextSplitIndex t -> k + 2 <= 31).
    { intros Hlt. destruct Hok as (Hk1 & Hm & Hs & Hn & Hlen).
      pose proof (pow2_pos k). pose proof (pow2_succ k).
      pose proof (pow2_le_32 (k + 1) Hk1).
      rewrite Hm, ones_pow2 in Hlt.
      unfold tableSize in Hfull. rewrite Hm, ones_pow2 in Hfull.
      rewrite to_unsigned_small in Hfull by lia.
      assert (Hlt31 : 2 ^ (k + 1) < 2 ^ 31) by lia.
      apply N.pow_lt_mono_r_iff in Hlt31; lia. }
    destruct (splitBucket_spec alloc_ok t k Hok Hc Hroom)
      as (Hok' & Hc' & Hu' & Hp').
    split_and!; try assumption.
    split_and!; try assumption.
    eapply counted_perm; eassumption.
  - split_and!; [| reflexivity | reflexivity].
    split_and!; eauto.
Qed.

Lemma add_duplicate (alloc_ok : bool) t (res r' : T) :
  let t1 := add_split idOf alloc_ok t in
  find idOf (bucket t1 (hash t1 (idOf res))) (idOf res) = Some r' ->
  add idOf alloc_ok t res = ((-1)%Z, t1).
Proof. cbv zeta. intros Hf. unfold add. rewrite Hf. reflexivity. Qed.

(** A successful [add] links the record at the head of the chain its
    identifier hashes to and counts it. *)
Lemma add_success (alloc_ok : bool) t (res : T) :
  let t1 := add_split idOf alloc_ok t in
  let t' := snd (add idOf alloc_ok t res) in
  table_inv idOf t -> nInUse t < 2 ^ 31 ->
  find idOf (bucket t1 (hash t1 (idOf res))) (idOf res) = None ->
  fst (add idOf alloc_ok t res) = 0%Z /\
  table_inv idOf t' /\
  nInUse t' = nInUse t + 1 /\
  records t' ≡ₚ res :: records t /\
  (forall idIn, hash t' idIn = hash t1 idIn) /\
  bucket t' (hash t' (idOf res))
    = res :: bucket t1 (hash t1 (idOf res)).
Proof.
  cbv zeta. intros Hinv Hsmall Hf. unfold add. rewrite Hf. cbn [fst snd].
  destruct (add_split_spec alloc_ok t Hinv Hsmall)
    as (([k Hok] & Hc & Hcnt) & Hu & Hp).
  set (t1 := add_split idOf alloc_ok t) in *.
  set (ix := hash t1 (idOf res)) in *.
  pose proof (hash_in_range k t1 (idOf res) Hok) as Hix. fold ix in Hix.
  match goal with |- _ /\ table_inv _ ?u /\ _ => set (t' := u) end.
  assert (Hh : forall idIn, hash t' idIn = hash t1 idIn)
    by (intros; apply hash_fields; reflexivity).
  assert (Hrec : records t' ≡ₚ res :: records t).
  { rewrite <- Hp. unfold records, t'; cbn [pTable].
    apply concat_push, bucket_lookup. assumption. }
  split_and!; try assumption; try reflexivity.
  - split_and!.
    + exists k. apply (masks_ok_fields k t1); try reflexivity; [|assumption].
      cbn. apply length_insert.
    + apply (consistent_insert t1 t' (N.to_nat ix) (res :: bucket t1 ix));
        try reflexivity; [| assumption].
      intros r Hr. rewrite N2Nat.id. apply elem_of_cons in Hr as [-> | Hr].
      * reflexivity.
      * apply consistent_bucket; assumption.
    + unfold counted. rewrite sum_length_concat.
      fold (records t'). rewrite Hrec. cbn [length nInUse t'].
      rewrite Hu. unfold counted in Hcnt.
      rewrite Hcnt, sum_length_concat in Hu. fold (records t1) in Hu.
      rewrite Hp in Hu. rewrite <- Hu.
      rewrite to_unsigned_small by lia. lia.
  - cbn [nInUse t']. rewrite Hu. apply to_unsigned_small. lia.
  - rewrite Hh. unfold bucket at 1. cbn [pTable t'].
    rewrite list_lookup_insert_eq by assumption. reflexivity.
Qed.

Lemma add_inv (alloc_ok : bool) t (res : T) :
  table_inv idOf t -> nInUse t < 2 ^ 31 ->
  table_inv idOf (snd (add idOf alloc_ok t res)) /\
  nInUse (snd (add idOf alloc_ok t res)) <= nInUse t + 1.
Proof.
  intros Hinv Hsmall.
  destruct (find idOf (bucket (add_split idOf alloc_ok t)
              (hash (add_split idOf alloc_ok t) (idOf res))) (idOf res))
    as [r'|] eqn:Hf.
  - rewrite (add_duplicate alloc_ok t res r' Hf). cbn [snd].
    destruct (add_split_spec alloc_ok t Hinv Hsmall) as (Hinv' & -> & _).
    split; [assumption | lia].
  - destruct (add_success alloc_ok t res Hinv Hsmall Hf)
      as (_ & Hinv' & -> & _).
    split; [assumption | lia].
Qed.

Lemma findDelete_chain_Some (l l' : tsSLList T) idIn (r : T) :
  findDelete_chain idOf l idIn = (Some r, l') ->
  l ≡ₚ r :: l' /\ id_eqb (idOf r) idIn = true.
Proof.
  revert l'. induction l as [|x l IH]; intros l'; cbn; [discriminate |].
  destruct (id_eqb (idOf x) idIn) eqn:E.
  - intros [= <- <-]. split; [reflexivity | assumption].
  - destruct (findDelete_chain idOf l idIn) as [found rest].
    intros [= -> <-]. destruct (IH rest eq_refl) as [Hp Heq].
    split; [| assumption]. rewrite Hp. apply perm_swap.
Qed.

Lemma findDelete_chain_None (l l' : tsSLList T) idIn :
  findDelete_chain idOf l idIn = (None, l') -> find idOf l idIn = None.
Proof.
  intros Hf. rewrite <- findDelete_chain_fst, Hf. reflexivity.
Qed.

(** [remove] unlinks the record it returns, counts it out, and leaves a
    table without a matching record as it is. *)
Lemma remove_spec t idIn :
  table_inv idOf t -> nInUse t < 2 ^ 32 ->
  table_inv idOf (snd (remove idOf t idIn)) /\
  match fst (remove idOf t idIn) with
  | Some r =>
      records t ≡ₚ r :: records (snd (remove idOf t idIn)) /\
      nInUse t = nInUse (snd (remove idOf t idIn)) + 1
  | None => snd (remove idOf t idIn) = t
  end.
Proof.
  intros Hinv Hsmall. pose proof Hinv as ([k Hok] & Hc & Hcnt).
  unfold remove, findDelete.
  set (ix := hash t idIn).
  pose proof (hash_in_range k t idIn Hok) as Hix. fold ix in Hix.
  destruct (findDelete_chain idOf (bucket t ix) idIn) as [[r|] l'] eqn:Hf;
    cbn [fst snd]; [| split; [assumption | reflexivity]].
  apply findDelete_chain_Some in Hf as [Hperm _].
  match goal with |- table_inv _ ?u /\ _ => set (t' := u) end.
  assert (Hrec : records t ≡ₚ r :: records t').
  { pose proof (concat_insert (pTable t) (N.to_nat ix) (bucket t ix) l'
                  (bucket_lookup t ix Hix)) as Hci.
    fold (records t) in Hci. rewrite Hperm in Hci.
    apply (Permutation_app_inv_r l').
    rewrite <- Hci. unfold records, t'; cbn [pTable].
    symmetry. apply Permutation_middle. }
  assert (Hcount : nInUse t = nInUse t' + 1).
  { unfold counted in Hcnt. rewrite sum_length_concat in Hcnt.
    fold (records t) in Hcnt. rewrite Hrec in Hcnt. cbn [length] in Hcnt.
    unfold t'; cbn [nInUse]. rewrite unsigned_pred_small by lia. lia. }
  split; [| split; assumption]. split_and!.
  - exists k. apply (masks_ok_fields k t); try reflexivity; [| assumption].
    cbn. apply length_insert.
  - apply (consistent_insert t t' (N.to_nat ix) l'); try reflexivity;
      [| assumption].
    intros x Hx. rewrite N2Nat.id. apply consistent_bucket; [assumption |].
    rewrite Hperm. right. assumption.
  - unfold counted in *. rewrite sum_length_concat in *.
    fold (records t) in Hcnt. fold (records t').
    rewrite Hrec in Hcnt. cbn [length] in Hcnt. lia.
Qed.

Lemma run_op_inv t (o : tableOp) :
  table_inv idOf t -> nInUse t < 2 ^ 31 ->
  table_inv idOf (run_op idOf t o) /\
  nInUse (run_op idOf t o) <= nInUse t + 1.
Proof.
  intros Hinv Hsmall. destruct o as [alloc_ok res | idIn]; cbn [run_op].
  - apply add_inv; assumption.
  - destruct (remove_spec t idIn Hinv ltac:(change (2 ^ 32) with
      (2 * 2 ^ 31); lia)) as [Hinv' Hres].
    split; [assumption |].
    destruct (fst (remove idOf t idIn)).
    + destruct Hres as [_ ->]. lia.
    + rewrite Hres. lia.
Qed.

Lemma run_ops_inv (ops : list tableOp) :
  forall t,
    table_inv idOf t -> nInUse t + N.of_nat (length ops) < 2 ^ 31 ->
    table_inv idOf (run_ops idOf ops t) /\
    nInUse (run_ops idOf ops t) <= nInUse t + N.of_nat (length ops).
Proof.
  induction ops as [|o ops IH]; intros t Hinv Hsmall; cbn [run_ops fold_left].
  - split; [assumption | cbn; lia].
  - cbn [length] in Hsmall.
    destruct (run_op_inv t o Hinv ltac:(lia)) as [Hinv1 Hn1].
    destruct (IH (run_op idOf t o) Hinv1 ltac:(lia)) as [Hinv2 Hn2].
    split; [assumption |]. cbn [length]. unfold run_ops in Hn2. lia.
Qed.

(** Removing records keeps the invariants and does not raise [nInUse]. *)
Lemma removes_inv (rems : list ID) :
  forall t,
    table_inv idOf t -> nInUse t < 2 ^ 32 ->
    table_inv idOf (run_ops idOf (op_remove <$> rems) t) /\
    nInUse (run_ops idOf (op_remove <$> rems) t) <= nInUse t.
Proof.
  induction rems as [|idIn rems IH]; intros t Hinv Hsmall.
  - split; [assumption | cbn; lia].
  - cbn [fmap list_fmap run_ops fold_left run_op].
    destruct (remove_spec t idIn Hinv Hsmall) as [Hinv1 Hres].
    assert (Hle : nInUse (snd (remove idOf t idIn)) <= nInUse t).
    { destruct (fst (remove idOf t idIn)).
      - destruct Hres as [_ ->]. lia.
      - rewrite Hres. lia. }
    destruct (IH (snd (remove idOf t idIn)) Hinv1 ltac:(lia)) as [Hinv2 Hn2].
    split; [exact Hinv2 |]. unfold run_ops in Hn2. lia.
Qed.

(** A freshly constructed table satisfies the invariants. *)
Lemma resTable_init_inv :
  minIndexBitWidth ID < 30 -> table_inv idOf (resTable_init ID T).
Proof.
  intros Hmin. rewrite (resTable_init_fields Hmin).
  set (m := minIndexBitWidth ID) in *.
  pose proof (pow2_pos m). pose proof (pow2_pos (m + 1)).
  split_and!.
  - exists m. unfold masks_ok. cbn. rewrite !ones_pow2, length_replicate.
    split_and!; lia.
  - intros i l r Hi Hr. cbn in Hi.
    apply lookup_replicate in Hi as [-> _]. inversion Hr.
  - unfold counted. cbn. rewrite sum_length_concat.
    assert (Hnil : forall n, concat (replicate n (@nil T)) = [])
      by (induction n; cbn; auto).
    rewrite Hnil. reflexivity.
Qed.

(** C3.  After any sequence of [add] and [remove] calls on a freshly
    constructed table, together with the split steps they take, [nInUse]
    (the value of [numEntriesInstalled]) is the sum of the lengths of the
    chains, and every record is on the chain whose index is the current
    bucket index of its identifier.  (The sequence is shorter than 2^31,
    so that the 32 bit counters do not wrap.) *)
Theorem table_invariants_preserved (ops : list (tableOp (T := T))) :
  minIndexBitWidth ID < 30 ->
  N.of_nat (length ops) < 2 ^ 31 ->
  let t := run_ops idOf ops (resTable_init ID T) in
  numEntriesInstalled t = N.of_nat (sum_list (length <$> pTable t)) /\
  (forall (i : nat) (l : tsSLList T) (r : T),
     pTable t !! i = Some l -> r ∈ l -> hash t (idOf r) = N.of_nat i).
Proof.
  intros Hmin Hlen. cbv zeta.
  pose proof (resTable_init_inv Hmin) as Hinv.
  destruct (run_ops_inv ops (resTable_init ID T) Hinv) as [(_ & Hc & Hcnt) _].
  - rewrite (resTable_init_fields Hmin). cbn [nInUse]. lia.
  - split; [exact Hcnt | exact Hc].
Qed.

(** [absent] can be checked by running over the records. *)
Lemma absent_check t idIn :
  forallb (fun r => negb (id_eqb (idOf r) idIn)) (records t) = true ->
  absent idOf t idIn.
Proof.
  intros Hall r Hr. rewrite forallb_forall in Hall.
  apply list_elem_of_In, Hall, negb_true_iff in Hr. exact Hr.
Qed.

Lemma add_split_fields (alloc_ok : bool) t :
  nInUse t <= tableSize t -> add_split idOf alloc_ok t = t.
Proof.
  intros Hle. unfold add_split.
  destruct (N.ltb_spec (tableSize t) (nInUse t)); [lia | reflexivity].
Qed.

(** C4, amended.  [add] first takes a split step when
    [nInUse > tableSize ()] and only then computes the bucket index and
    scans the chain of the table the split step left.  It returns
    Duplicate (-1) exactly when a record of that chain has an identifier
    equal to the new one, and 0 exactly when none has.  An [add] that
    returns Duplicate links nothing: it leaves the table as the split step
    left it, that is unchanged when [nInUse <= tableSize ()], and in any
    case with the same records and the same [nInUse]. *)
Theorem add_duplicate_state (alloc_ok : bool) t (res : T) :
  table_inv idOf t -> nInUse t < 2 ^ 31 ->
  let t0 := if tableSize t <? nInUse t then splitBucket idOf alloc_ok t
            else t in
  let chain := bucket t0 (hash t0 (idOf res)) in
  let status := fst (add idOf alloc_ok t res) in
  let t' := snd (add idOf alloc_ok t res) in
  (status = (-1)%Z <->
   exists r', r' ∈ chain /\ id_eqb (idOf r') (idOf res) = true) /\
  (status = 0%Z <->
   forall r', r' ∈ chain -> id_eqb (idOf r') (idOf res) = false) /\
  (status = (-1)%Z ->
   t' = t0 /\
   nInUse t' = nInUse t /\
   records t' ≡ₚ records t /\
   table_inv idOf t' /\
   exists r', r' ∈ bucket t' (hash t' (idOf res)) /\
              id_eqb (idOf r') (idOf res) = true).
Proof.
  intros Hinv Hsmall. cbv zeta.
  destruct (add_split_spec alloc_ok t Hinv Hsmall) as (Hinv' & Hu & Hp).
  change (if tableSize t <? nInUse t then splitBucket idOf alloc_ok t else t)
    with (add_split idOf alloc_ok t).
  set (t0 := add_split idOf alloc_ok t) in *.
  destruct (find idOf (bucket t0 (hash t0 (idOf res))) (idOf res))
    as [r'|] eqn:Hf.
  - rewrite (add_duplicate alloc_ok t res r' Hf). cbn [fst snd].
    apply find_Some in Hf as Hr'. split_and!.
    + split; [intros _; exists r'; exact Hr' | reflexivity].
    + split; [discriminate |]. intros Hall.
      destruct Hr' as [Hin Heq]. rewrite (Hall r' Hin) in Heq. discriminate.
    + intros _. fold t0. split_and!; try assumption; [reflexivity |].
      exists r'. exact Hr'.
  - pose proof (proj1 (find_None idOf _ _) Hf) as Hnone.
    destruct (add_success alloc_ok t res Hinv Hsmall Hf) as (Hst & _).
    rewrite Hst. split_and!.
    + split; [discriminate |]. intros (r' & Hin & Heq).
      rewrite (Hnone r' Hin) in Heq. discriminate.
    + split; [intros _; exact Hnone | reflexivity].
    + discriminate.
Qed.

(** C1, amended.  For a table that satisfies its invariants and holds
    fewer than 2^31 records, and a record [r] whose identifier compares
    equal to itself and to the identifier of no record of the table:
    [add] succeeds, [lookup] then returns [r], [remove] returns [r], and
    [lookup] after that returns null. *)
Theorem add_lookup_remove_roundtrip (alloc_ok : bool) t (r : T) :
  table_inv idOf t -> nInUse t < 2 ^ 31 ->
  id_eqb (idOf r) (idOf r) = true ->
  absent idOf t (idOf r) ->
  let t1 := snd (add idOf alloc_ok t r) in
  let t2 := snd (remove idOf t1 (idOf r)) in
  fst (add idOf alloc_ok t r) = 0%Z /\
  lookup idOf t1 (idOf r) = Some r /\
  fst (remove idOf t1 (idOf r)) = Some r /\
  lookup idOf t2 (idOf r) = None.
Proof.
  intros Hinv Hsmall Hrefl Habs. cbv zeta.
  destruct (add_split_spec alloc_ok t Hinv Hsmall) as (Hinv0 & Hu0 & Hp0).
  set (t0 := add_split idOf alloc_ok t) in *.
  assert (Hrest : forall x, x ∈ bucket t0 (hash t0 (idOf r)) ->
                            id_eqb (idOf x) (idOf r) = false).
  { intros x Hx. apply Habs. rewrite <- Hp0. apply elem_of_concat.
    unfold bucket in Hx.
    destruct (pTable t0 !! N.to_nat (hash t0 (idOf r))) as [l|] eqn:E;
      cbn in Hx; [eauto | inversion Hx]. }
  assert (Hf : find idOf (bucket t0 (hash t0 (idOf r))) (idOf r) = None)
    by (apply find_None; assumption).
  destruct (add_success alloc_ok t r Hinv Hsmall Hf)
    as (Hst & Hinv1 & Hu1 & Hp1 & Hh1 & Hb1).
  set (t1 := snd (add idOf alloc_ok t r)) in *.
  assert (Hlook : lookup idOf t1 (idOf r) = Some r).
  { unfold lookup. rewrite Hb1. cbn. rewrite Hrefl. reflexivity. }
  split_and!; try assumption.
  - rewrite remove_fst. assumption.
  - destruct Hinv1 as ([k Hok] & _ & _).
    pose proof (hash_in_range k t1 (idOf r) Hok) as Hix.
    unfold remove, findDelete. rewrite Hb1. cbn [findDelete_chain].
    rewrite Hrefl. cbn [snd].
    match goal with |- lookup _ ?u _ = _ => set (t2 := u) end.
    unfold lookup.
    rewrite (hash_fields t1 t2) by reflexivity.
    unfold bucket at 1. cbn [pTable t2].
    rewrite list_lookup_insert_eq by assumption. cbn [default].
    fold t0. assumption.
Qed.

End ResTableInvariants.

Lemma table_invariants_preserved_witness :
  let ops := [op_add true (r432 1); op_add true (r432 2);
              op_remove (mk_intId 1)] in
  let t := run_ops intRes_id ops
             (resTable_init (intId 4 32) (intRes 4 32 unit)) in
  numEntriesInstalled t = N.of_nat (sum_list (length <$> pTable t)) /\
  (forall (i : nat) (l : tsSLList (intRes 4 32 unit)) (r : intRes 4 32 unit),
     pTable t !! i = Some l -> r ∈ l ->
     hash t (intRes_id r) = N.of_nat i).
Proof.
  apply (table_invariants_preserved intRes_id
           [op_add true (r432 1); op_add true (r432 2);
            op_remove (mk_intId 1)]).
  - vm_compute. reflexivity.
  - vm_compute. reflexivity.
Defined.

(** The table with the records 0 .. n - 1 satisfies the invariants. *)
Lemma table432_inv (n : nat) :
  N.of_nat n < 2 ^ 31 ->
  table_inv intRes_id (table432 n) /\ nInUse (table432 n) <= N.of_nat n.
Proof.
  intros Hn. unfold table432.
  pose proof (run_ops_inv intRes_id
    (List.map (fun i => op_add true (r432 (N.of_nat i))) (seq 0 n))
    (resTable_init (intId 4 32) (intRes 4 32 unit))) as Hrun.
  rewrite length_map, length_seq in Hrun.
  apply Hrun.
  - apply resTable_init_inv. vm_compute. reflexivity.
  - exact Hn.
Qed.

(** C4, as the specification states it, fails: with 17 records in a table
    of 16 buckets, adding a record whose identifier is already present
    returns Duplicate after a split step that moved [nextSplitIndex]. *)
Lemma add_duplicate_counterexample :
  let t := table432 17 in
  tableSize t < nInUse t /\
  fst (add intRes_id true t (r432 0)) = (-1)%Z /\
  snd (add intRes_id true t (r432 0)) <> t.
Proof.
  cbv zeta. split_and!.
  - vm_compute. reflexivity.
  - vm_compute. reflexivity.
  - intros Heq. apply (f_equal nextSplitIndex) in Heq.
    vm_compute in Heq. discriminate.
Qed.

Lemma add_duplicate_state_witness :
  let t := table432 17 in
  let res := r432 0 in
  let t0 := if tableSize t <? nInUse t then splitBucket intRes_id true t
            else t in
  let chain := bucket t0 (hash t0 (intRes_id res)) in
  let status := fst (add intRes_id true t res) in
  let t' := snd (add intRes_id true t res) in
  (status = (-1)%Z <->
   exists r', r' ∈ chain /\ id_eqb (intRes_id r') (intRes_id res) = true) /\
  (status = 0%Z <->
   forall r', r' ∈ chain -> id_eqb (intRes_id r') (intRes_id res) = false) /\
  (status = (-1)%Z ->
   t' = t0 /\
   nInUse t' = nInUse t /\
   records t' ≡ₚ records t /\
   table_inv intRes_id t' /\
   exists r', r' ∈ bucket t' (hash t' (intRes_id res)) /\
              id_eqb (intRes_id r') (intRes_id res) = true).
Proof.
  apply (add_duplicate_state intRes_id true (table432 17) (r432 0)).
  - apply (table432_inv 17). vm_compute. reflexivity.
  - vm_compute. reflexivity.
Defined.

Lemma add_lookup_remove_roundtrip_witness :
  let t := table432 17 in
  let r := r432 100 in
  let t1 := snd (add intRes_id true t r) in
  let t2 := snd (remove intRes_id t1 (intRes_id r)) in
  fst (add intRes_id true t r) = 0%Z /\
  lookup intRes_id t1 (intRes_id r) = Some r /\
  fst (remove intRes_id t1 (intRes_id r)) = Some r /\
  lookup intRes_id t2 (intRes_id r) = None.
Proof.
  apply (add_lookup_remove_roundtrip intRes_id true (table432 17) (r432 100)).
  - apply (table432_inv 17). vm_compute. reflexivity.
  - vm_compute. reflexivity.
  - vm_compute. reflexivity.
  - apply absent_check. vm_compute. reflexivity.
Defined.

(** C1, as the specification states it, fails for a string identifier
    with a null backing pointer: it is equal to the identifier of no
    record, [add] succeeds, and [lookup] does not return the record. *)
Lemma roundtrip_null_counterexample :
  let t := resTable_init stringId (stringRes N) in
  let r := mk_stringRes null_stringId 7 in
  absent stringRes_id t (stringRes_id r) /\
  fst (add stringRes_id true t r) = 0%Z /\
  lookup stringRes_id (snd (add stringRes_id true t r)) (stringRes_id r)
    <> Some r.
Proof.
  cbv zeta. split_and!.
  - intros r' _. apply stringId_eqb_null_r. reflexivity.
  - vm_compute. reflexivity.
  - vm_compute. discriminate.
Qed.

(** ** The chronological table *)

Lemma to_unsigned_inj (a i j : N) :
  i < 2 ^ 32 -> j < 2 ^ 32 ->
  to_unsigned (a + i) = to_unsigned (a + j) -> i = j.
Proof.
  unfold to_unsigned. change (2 ^ UINT_WIDTH) with (2 ^ 32).
  intros Hi Hj Heq.
  pose proof (N.div_mod' (a + i) (2 ^ 32)) as Ei.
  pose proof (N.div_mod' (a + j) (2 ^ 32)) as Ej.
  rewrite Heq in Ei.
  generalize dependent ((a + i) / 2 ^ 32). intros qi Ei.
  generalize dependent ((a + j) / 2 ^ 32). intros qj Ej.
  generalize dependent ((a + j) mod 2 ^ 32). intros rj _ Ei Ej.
  assert (qi = qj \/ qi < qj \/ qj < qi) as [-> | [Hlt | Hlt]] by lia; nia.
Qed.

Lemma to_unsigned_add_l (a b : N) :
  to_unsigned (to_unsigned a + b) = to_unsigned (a + b).
Proof. unfold to_unsigned. apply N.Div0.add_mod_idemp_l. Qed.

(** Fewer than 2^32 identifiers cannot cover 2^32 successive counter
    values: some value among the first [length l + 1] is free, and we take
    the first one. *)
Lemma first_free (a : N) (l : list N) :
  N.of_nat (length l) < 2 ^ 32 ->
  exists j : nat,
    (j <= length l)%nat /\
    (to_unsigned (a + N.of_nat j) ∉ l) /\
    forall i : nat, (i < j)%nat -> to_unsigned (a + N.of_nat i) ∈ l.
Proof.
  intros Hlen.
  assert (Hscan : forall n : nat,
            (forall i : nat, (i < n)%nat ->
                             to_unsigned (a + N.of_nat i) ∈ l) \/
            (exists j : nat, (j < n)%nat /\
               (to_unsigned (a + N.of_nat j) ∉ l) /\
               forall i : nat, (i < j)%nat ->
                               to_unsigned (a + N.of_nat i) ∈ l)).
  { induction n as [|n [IH | (j & Hj & Hfree & Hbelow)]].
    - left. intros i Hi. lia.
    - destruct (decide (to_unsigned (a + N.of_nat n) ∈ l)) as [Hin | Hout].
      + left. intros i Hi.
        destruct (decide (i = n)) as [-> | Hne]; [assumption |].
        apply IH. lia.
      + right. exists n. split_and!; [lia | assumption | assumption].
    - right. exists j. split_and!; [lia | assumption | assumption]. }
  destruct (Hscan (S (length l))) as [Hall | (j & Hj & Hfree & Hbelow)].
  - exfalso.
    set (c := (fun i : nat => to_unsigned (a + N.of_nat i))
                <$> seq 0 (S (length l))).
    assert (Hnd : NoDup c).
    { apply NoDup_fmap_2_strong; [| apply NoDup_seq].
      intros x y Hx Hy Heq.
      apply elem_of_seq in Hx, Hy.
      apply to_unsigned_inj in Heq; lia. }
    assert (Hsub : forall x, x ∈ c -> x ∈ l).
    { intros x Hx. apply list_elem_of_fmap in Hx as (i & -> & Hi).
      apply elem_of_seq in Hi. apply Hall. lia. }
    pose proof (submseteq_length _ _ (NoDup_submseteq _ _ Hnd Hsub)) as Hle.
    unfold c in Hle. rewrite length_fmap, length_seq in Hle. lia.
  - exists j. split_and!; [lia | assumption | assumption].
Qed.

Section ChronFacts.

Context {A : Type}.
Implicit Types (t : resTable (chronIntIdRes A)) (item : chronIntIdRes A).
Implicit Types (this : chronIntIdResTable A).

Lemma id_live_true t (n : N) :
  id_live t n = true <-> exists r, r ∈ records t /\ id (chron_id r) = n.
Proof.
  unfold id_live. rewrite existsb_exists.
  split; intros (r & Hr & E); exists r.
  - apply list_elem_of_In in Hr. apply N.eqb_eq in E. tauto.
  - apply list_elem_of_In in Hr. apply N.eqb_eq in E. tauto.
Qed.

Lemma id_live_false t (n : N) :
  id_live t n = false <-> absent chron_id t (mk_intId n).
Proof.
  unfold absent. cbn. split.
  - intros Hdead r Hr. apply N.eqb_neq. intros E.
    assert (Hlive : id_live t n = true) by (apply id_live_true; eauto).
    congruence.
  - intros Habs. destruct (id_live t n) eqn:E; [| reflexivity].
    apply id_live_true in E as (r & Hr & E).
    apply Habs in Hr. apply N.eqb_neq in Hr. contradiction.
Qed.

Lemma id_live_perm t t' (n : N) :
  records t' ≡ₚ records t -> id_live t' n = id_live t n.
Proof.
  intros Hp. apply eq_true_iff_eq. rewrite !id_live_true.
  split; intros (r & Hr & E); exists r; split; try assumption.
  - rewrite <- Hp. assumption.
  - rewrite Hp. assumption.
Qed.

Lemma id_live_ids t (n : N) :
  n ∈ (fun r => id (chron_id r)) <$> records t <-> id_live t n = true.
Proof.
  rewrite id_live_true, list_elem_of_fmap.
  split; intros (r & H1 & H2); exists r; auto.
Qed.

(** A round of the loop whose counter value is the identifier of a record
    of the table: [resTable::add] reports a duplicate. *)
Lemma chron_round_dup (alloc_ok : bool) t item (n : N) :
  table_inv chron_id t -> nInUse t < 2 ^ 31 ->
  id_live t n = true ->
  add chron_id alloc_ok t (setId item n)
    = ((-1)%Z, add_split chron_id alloc_ok t).
Proof.
  intros Hinv Hsmall Hlive.
  destruct (add_split_spec chron_id alloc_ok t Hinv Hsmall)
    as ((_ & Hc & _) & _ & Hp).
  set (t0 := add_split chron_id alloc_ok t) in *.
  apply id_live_true in Hlive as (r & Hr & E).
  rewrite <- Hp in Hr. apply elem_of_concat in Hr as (i & l & Hi & Hr).
  assert (Hid : chron_id r = chron_id (setId item n))
    by (cbn; destruct (chron_id r); cbn in E; congruence).
  pose proof (Hc i l r Hi Hr) as Hh. rewrite Hid in Hh.
  destruct (find chron_id (bucket t0 (hash t0 (chron_id (setId item n))))
              (chron_id (setId item n))) as [x|] eqn:Hf.
  - apply (add_duplicate chron_id alloc_ok t (setId item n) x Hf).
  - exfalso. rewrite find_None in Hf.
    specialize (Hf r). rewrite Hh, (bucket_of_nat _ _ _ Hi) in Hf.
    specialize (Hf Hr).
    cbn in Hf. apply N.eqb_neq in Hf. congruence.
Qed.

(** A round of the loop whose counter value is free: [resTable::add]
    links the item. *)
Lemma chron_round_free (alloc_ok : bool) t item (n : N) :
  table_inv chron_id t -> nInUse t < 2 ^ 31 ->
  id_live t n = false ->
  exists t',
    add chron_id alloc_ok t (setId item n) = (0%Z, t') /\
    table_inv chron_id t' /\
    nInUse t' = nInUse t + 1 /\
    records t' ≡ₚ setId item n :: records t /\
    lookup chron_id t' (chron_id (setId item n)) = Some (setId item n).
Proof.
  intros Hinv Hsmall Hfree.
  apply id_live_false in Hfree.
  destruct (add_split_spec chron_id alloc_ok t Hinv Hsmall) as (_ & _ & Hp).
  set (t0 := add_split chron_id alloc_ok t) in *.
  assert (Hf : find chron_id (bucket t0 (hash t0 (chron_id (setId item n))))
                 (chron_id (setId item n)) = None).
  { apply find_None. intros x Hx. apply Hfree. rewrite <- Hp.
    apply elem_of_concat. unfold bucket in Hx.
    destruct (pTable t0 !! N.to_nat (hash t0 (chron_id (setId item n))))
      as [l|] eqn:E; cbn in Hx; [eauto | inversion Hx]. }
  destruct (add_success chron_id alloc_ok t (setId item n) Hinv Hsmall Hf)
    as (Hst & Hinv1 & Hu1 & Hp1 & Hh1 & Hb1).
  destruct (add chron_id alloc_ok t (setId item n)) as [st t'] eqn:E.
  cbn [fst snd] in *. subst st. exists t'.
  split_and!; try assumption; [reflexivity |].
  unfold lookup. rewrite Hb1. cbn. rewrite N.eqb_refl. reflexivity.
Qed.

Lemma chron_add_fuel_mono (fuel : nat) :
  forall (fuel' : nat) allocs (round : nat) this item res,
    (fuel <= fuel')%nat ->
    chronIntIdResTable_add fuel allocs round this item = Some res ->
    chronIntIdResTable_add fuel' allocs round this item = Some res.
Proof.
  induction fuel as [|fuel IH]; intros fuel' allocs round this item res Hle;
    cbn [chronIntIdResTable_add]; [discriminate |].
  destruct fuel' as [|fuel']; [lia |]. cbn [chronIntIdResTable_add].
  destruct (add chron_id (allocs round) (chron_table this)
              (setId item (allocId this))) as [st t'].
  destruct (st =? 0)%Z; [auto |]. apply IH. lia.
Qed.

(** The loop run from a counter whose next [j] values are identifiers of
    records and whose value after those is free. *)
Lemma chron_add_loop (j : nat) :
  forall (fuel : nat) allocs (round : nat) this item,
    chron_inv this -> nInUse (chron_table this) < 2 ^ 31 ->
    (j < fuel)%nat ->
    (forall i : nat, (i < j)%nat ->
       id_live (chron_table this)
         (to_unsigned (allocId this + N.of_nat i)) = true) ->
    id_live (chron_table this)
      (to_unsigned (allocId this + N.of_nat j)) = false ->
    exists t',
      chronIntIdResTable_add fuel allocs round this item
        = Some (mk_chronIntIdResTable t'
                  (to_unsigned (allocId this + N.of_nat j + 1)),
                setId item (to_unsigned (allocId this + N.of_nat j))) /\
      table_inv chron_id t' /\
      nInUse t' = nInUse (chron_table this) + 1 /\
      records t'
        ≡ₚ setId item (to_unsigned (allocId this + N.of_nat j))
             :: records (chron_table this) /\
      lookup chron_id t'
        (chron_id (setId item (to_unsigned (allocId this + N.of_nat j))))
        = Some (setId item (to_unsigned (allocId this + N.of_nat j))).
Proof.
  induction j as [|j IH];
    intros fuel allocs round this item [Hinv Hid] Hsmall Hfuel Hlive Hfree;
    (destruct fuel as [|fuel]; [lia |]); cbn [chronIntIdResTable_add].
  - rewrite N.add_0_r in *.
    rewrite (to_unsigned_small (allocId this)) in * by exact Hid.
    destruct (chron_round_free (allocs round) (chron_table this) item
                (allocId this) Hinv Hsmall Hfree)
      as (t' & -> & Hinv' & Hu & Hp & Hl).
    cbn. exists t'. split_and!; try assumption. reflexivity.
  - pose proof (Hlive 0%nat ltac:(lia)) as Hlive0.
    rewrite N.add_0_r, (to_unsigned_small (allocId this)) in Hlive0
      by exact Hid.
    rewrite (chron_round_dup (allocs round) (chron_table this) item
               (allocId this) Hinv Hsmall Hlive0).
    cbn [Z.eqb].
    destruct (add_split_spec chron_id (allocs round) (chron_table this)
                Hinv Hsmall) as (Hinv0 & Hu0 & Hp0).
    set (t0 := add_split chron_id (allocs round) (chron_table this)) in *.
    set (this' := mk_chronIntIdResTable t0 (to_unsigned (allocId this + 1))).
    assert (Hshift : forall i : nat,
              to_unsigned (allocId this' + N.of_nat i)
              = to_unsigned (allocId this + N.of_nat (S i))).
    { intros i. cbn [allocId this']. rewrite to_unsigned_add_l.
      f_equal. lia. }
    destruct (IH fuel allocs (S round) this' (setId item (allocId this)))
      as (t' & Hrun & Hinv' & Hu & Hp & Hl).
    + split; [exact Hinv0 | apply N.mod_lt; discriminate].
    + cbn [chron_table this']. lia.
    + lia.
    + intros i Hi. cbn [chron_table this'].
      rewrite (id_live_perm (chron_table this) t0) by assumption.
      rewrite Hshift. apply Hlive. lia.
    + cbn [chron_table this'].
      rewrite (id_live_perm (chron_table this) t0) by assumption.
      rewrite Hshift. assumption.
    + rewrite Hshift in *. cbn [chron_table this'] in *.
      exists t'. split_and!; try assumption.
      * rewrite Hrun. do 3 f_equal.
        cbn [allocId this']. rewrite <- N.add_assoc, to_unsigned_add_l.
        f_equal. lia.
      * lia.
      * rewrite Hp, Hp0. reflexivity.
Qed.

(** One call of [chronIntIdResTable::add] on a well formed table with
    fewer than 2^31 records: the loop ends after skipping [j] counter values
    that are identifiers of records, and gives the item the first free
    value. *)
Lemma chron_add_spec allocs this item :
  chron_inv this -> nInUse (chron_table this) < 2 ^ 31 ->
  exists (j : nat) (this' : chronIntIdResTable A),
    let newId := to_unsigned (allocId this + N.of_nat j) in
    N.of_nat j <= nInUse (chron_table this) /\
    (forall fuel : nat, (j < fuel)%nat ->
       chronIntIdResTable_add fuel allocs 0 this item
         = Some (this', setId item newId)) /\
    (forall i : nat, (i < j)%nat ->
       id_live (chron_table this)
         (to_unsigned (allocId this + N.of_nat i)) = true) /\
    id_live (chron_table this) newId = false /\
    allocId this' = to_unsigned (newId + 1) /\
    chron_inv this' /\
    nInUse (chron_table this') = nInUse (chron_table this) + 1 /\
    records (chron_table this')
      ≡ₚ setId item newId :: records (chron_table this) /\
    lookup chron_id (chron_table this') (chron_id (setId item newId))
      = Some (setId item newId).
Proof.
  intros Hci Hsmall. pose proof Hci as [Hinv Hid].
  set (ids := (fun r => id (chron_id r)) <$> records (chron_table this)).
  assert (Hlen : N.of_nat (length ids) = nInUse (chron_table this)).
  { unfold ids. rewrite length_fmap.
    destruct Hinv as (_ & _ & Hcnt). unfold counted in Hcnt.
    rewrite sum_length_concat in Hcnt. symmetry. exact Hcnt. }
  destruct (first_free (allocId this) ids) as (j & Hj & Hfree & Hbelow).
  { rewrite Hlen. change (2 ^ 32) with (2 * 2 ^ 31). lia. }
  assert (Hfree' : id_live (chron_table this)
                     (to_unsigned (allocId this + N.of_nat j)) = false).
  { destruct (id_live (chron_table this)
                (to_unsigned (allocId this + N.of_nat j))) eqn:E;
      [| reflexivity].
    apply id_live_ids in E. contradiction. }
  assert (Hbelow' : forall i : nat, (i < j)%nat ->
            id_live (chron_table this)
              (to_unsigned (allocId this + N.of_nat i)) = true).
  { intros i Hi. apply id_live_ids, Hbelow, Hi. }
  destruct (chron_add_loop j (S j) allocs 0 this item Hci Hsmall
              ltac:(lia) Hbelow' Hfree')
    as (t' & Hrun & Hinv' & Hu & Hp & Hl).
  exists j, (mk_chronIntIdResTable t'
               (to_unsigned (allocId this + N.of_nat j + 1))).
  cbv zeta. cbn [chron_table allocId].
  split_and!; try assumption.
  - lia.
  - intros fuel Hfuel.
    apply (chron_add_fuel_mono (S j)); [lia | exact Hrun].
  - symmetry. apply to_unsigned_add_l.
  - split; [exact Hinv' | apply N.mod_lt; discriminate].
Qed.

(** C9.  The counter [allocId] starts at 1.  A call of
    [chronIntIdResTable::add] gives the item the current counter value,
    increments the counter, and tries the next value as long as
    [resTable::add] reports a duplicate: it skips [j] values that are
    identifiers of records, the item gets the value after those, and the
    counter is left one beyond.  The next insertion, whatever records
    were removed in between, therefore gets an identifier [1 + j'] beyond
    the previous one modulo 2^32, with [1 + j' < 2^32], and so a
    different one. *)
Theorem chronological_allocation allocs allocs' this item item'
    (rems : list chronIntId) :
  chron_inv this -> nInUse (chron_table this) + 1 < 2 ^ 31 ->
  allocId (chronIntIdResTable_init A) = 1 /\
  exists (j j' : nat) (this1 this2 : chronIntIdResTable A)
         (item1 item2 : chronIntIdRes A),
    let removed :=
      mk_chronIntIdResTable
        (run_ops chron_id (op_remove <$> rems) (chron_table this1))
        (allocId this1) in
    (* the first insertion *)
    N.of_nat j <= nInUse (chron_table this) /\
    (forall fuel : nat, (j < fuel)%nat ->
       chronIntIdResTable_add fuel allocs 0 this item
         = Some (this1, item1)) /\
    (forall i : nat, (i < j)%nat ->
       id_live (chron_table this)
         (to_unsigned (allocId this + N.of_nat i)) = true) /\
    id_live (chron_table this) (id (chron_id item1)) = false /\
    id (chron_id item1) = to_unsigned (allocId this + N.of_nat j) /\
    chron_data item1 = chron_data item /\
    allocId this1 = to_unsigned (id (chron_id item1) + 1) /\
    lookup chron_id (chron_table this1) (chron_id item1) = Some item1 /\
    (* the insertion after it *)
    N.of_nat j' <= nInUse (chron_table removed) /\
    (forall fuel : nat, (j' < fuel)%nat ->
       chronIntIdResTable_add fuel allocs' 0 removed item'
         = Some (this2, item2)) /\
    id (chron_id item2)
      = to_unsigned (id (chron_id item1) + (1 + N.of_nat j')) /\
    1 + N.of_nat j' < 2 ^ 32 /\
    id (chron_id item2) <> id (chron_id item1) /\
    lookup chron_id (chron_table this2) (chron_id item2) = Some item2.
Proof.
  intros Hci Hsmall. split; [reflexivity |].
  destruct (chron_add_spec allocs this item Hci ltac:(lia))
    as (j & this1 & Hj & Hrun & Hbelow & Hfree & Hid & Hci1 & Hu & Hp & Hl).
  cbv zeta in *.
  set (removed := mk_chronIntIdResTable
         (run_ops chron_id (op_remove <$> rems) (chron_table this1))
         (allocId this1)).
  destruct Hci1 as [Hinv1 Hid1].
  destruct (removes_inv chron_id rems (chron_table this1) Hinv1
              ltac:(change (2 ^ 32) with (2 * 2 ^ 31); lia))
    as [Hinvr Hnr].
  assert (Hcir : chron_inv removed) by (split; assumption).
  destruct (chron_add_spec allocs' removed item' Hcir
              ltac:(cbn [chron_table removed]; lia))
    as (j' & this2 & Hj' & Hrun' & _ & Hfree' & _ & _ & _ & _ & Hl').
  cbv zeta in *. cbn [chron_table allocId removed] in Hj', Hfree', Hl'.
  set (id1 := to_unsigned (allocId this + N.of_nat j)) in *.
  set (id2 := to_unsigned (allocId this1 + N.of_nat j')) in *.
  exists j, j', this1, this2, (setId item id1), (setId item' id2).
  cbn [setId chron_id chron_data id chron_table allocId removed] in *.
  assert (Hid2 : id2 = to_unsigned (id1 + (1 + N.of_nat j'))).
  { unfold id2. rewrite Hid, to_unsigned_add_l. f_equal. lia. }
  assert (Hj32 : 1 + N.of_nat j' < 2 ^ 32)
    by (change (2 ^ 32) with (2 * 2 ^ 31); lia).
  split_and!; try assumption; try reflexivity.
  intros Heq. rewrite Hid2 in Heq.
  assert (Hid1' : id1 = to_unsigned (id1 + 0)).
  { rewrite N.add_0_r. symmetry. apply to_unsigned_small.
    apply N.mod_lt. discriminate. }
  rewrite Hid1' in Heq at 2.
  apply to_unsigned_inj in Heq; lia.
Qed.

End ChronFacts.

Lemma chronological_allocation_witness :
  let this := chronIntIdResTable_init unit in
  allocId (chronIntIdResTable_init unit) = 1 /\
  exists (j j' : nat) (this1 this2 : chronIntIdResTable unit)
         (item1 item2 : chronIntIdRes unit),
    let removed :=
      mk_chronIntIdResTable
        (run_ops chron_id (op_remove <$> [mk_intId 1])
           (chron_table this1))
        (allocId this1) in
    N.of_nat j <= nInUse (chron_table this) /\
    (forall fuel : nat, (j < fuel)%nat ->
       chronIntIdResTable_add fuel (fun _ => true) 0 this
         (chronIntIdRes_new tt) = Some (this1, item1)) /\
    (forall i : nat, (i < j)%nat ->
       id_live (chron_table this)
         (to_unsigned (allocId this + N.of_nat i)) = true) /\
    id_live (chron_table this) (id (chron_id item1)) = false /\
    id (chron_id item1) = to_unsigned (allocId this + N.of_nat j) /\
    chron_data item1 = chron_data (chronIntIdRes_new tt) /\
    allocId this1 = to_unsigned (id (chron_id item1) + 1) /\
    lookup chron_id (chron_table this1) (chron_id item1) = Some item1 /\
    N.of_nat j' <= nInUse (chron_table removed) /\
    (forall fuel : nat, (j' < fuel)%nat ->
       chronIntIdResTable_add fuel (fun _ => true) 0 removed
         (chronIntIdRes_new tt) = Some (this2, item2)) /\
    id (chron_id item2)
      = to_unsigned (id (chron_id item1) + (1 + N.of_nat j')) /\
    1 + N.of_nat j' < 2 ^ 32 /\
    id (chron_id item2) <> id (chron_id item1) /\
    lookup chron_id (chron_table this2) (chron_id item2) = Some item2.
Proof.
  apply (chronological_allocation (fun _ => true) (fun _ => true)
           (chronIntIdResTable_init unit)
           (chronIntIdRes_new tt) (chronIntIdRes_new tt) [mk_intId 1]).
  - split.
    + apply resTable_init_inv. vm_compute. reflexivity.
    + vm_compute. reflexivity.
  - vm_compute. reflexivity.
Defined.

(** * Further properties *)

(** ** More on the integer mixer *)

Lemma fst_count (p : N * nat) : fst (let (h, n) := p in (h, S n)) = fst p.
Proof. destruct p; reflexivity. Qed.

Lemma integerHash_loop_min0 (w : positive) :
  forall h, fst (integerHash_loop 0 w h) = 0.
Proof.
  induction w as [w IH | w IH |]; intros h; cbn [integerHash_loop].
  - change (0 <? N.pos w) with true. cbv iota. rewrite fst_count. apply IH.
  - change (0 <? N.pos w) with true. cbv iota. rewrite fst_count. apply IH.
  - cbn [fst]. rewrite N.shiftr_0_r. apply N.lxor_nilpotent.
Qed.

(** X1.  With MIN_INDEX_WIDTH = 0 the loop of [integerHash] only stops
    after folding with a width of 0, which cancels the value: the mixer
    returns 0 for every identifier, and every identifier of an
    [intId<T, 0, MAX_ID_WIDTH>] table lands in bucket 0. *)
Theorem integerHash_min0 (MAX v : N) (A : Type)
    (t : resTable (intRes 0 MAX A)) (idIn : intId 0 MAX) :
  integerHash 0 MAX v = 0 /\ hash t idIn = 0.
Proof.
  assert (Hz : forall x, integerHash 0 MAX x = 0).
  { intros x. unfold integerHash, integerHash_do. destruct MAX as [|w].
    - cbn [fst]. rewrite N.shiftr_0_r. apply N.lxor_nilpotent.
    - apply integerHash_loop_min0. }
  split; [apply Hz |].
  unfold hash. cbn [id_hash intId_Identifier]. rewrite Hz, !N.land_0_l.
  destruct (nextSplitIndex t <=? 0); reflexivity.
Qed.

Lemma fold_step_nonzero (w d : N) : 1 <= w -> d <> 0 -> fold_step w d <> 0.
Proof.
  intros Hw Hd Hz.
  assert (Hbit : N.testbit (fold_step w d) (N.log2 d) = true).
  { unfold fold_step.
    rewrite N.lxor_spec, N.shiftr_spec by lia.
    rewrite N.bit_log2 by assumption.
    rewrite N.bits_above_log2 by lia. reflexivity. }
  rewrite Hz, N.bits_0 in Hbit. discriminate.
Qed.

Lemma fold_step_inj (w x y : N) :
  1 <= w -> fold_step w x = fold_step w y -> x = y.
Proof.
  intros Hw Heq. apply N.lxor_eq.
  destruct (N.eq_dec (N.lxor x y) 0) as [|Hne]; [assumption | exfalso].
  apply (fold_step_nonzero w _ Hw Hne).
  rewrite fold_step_lxor, Heq. apply N.lxor_nilpotent.
Qed.

Lemma integerHash_loop_inj (MIN : N) (w : positive) :
  1 <= MIN -> 2 <= N.pos w ->
  forall x y,
    fst (integerHash_loop MIN w x) = fst (integerHash_loop MIN w y) -> x = y.
Proof.
  intros Hmin. induction w as [w IH | w IH |]; intros Hw x y;
    cbn [integerHash_loop]; [| | lia].
  - destruct (N.ltb_spec MIN (N.pos w)) as [Hlt | Hge].
    + rewrite !fst_count. intros Heq. apply IH in Heq; [| lia].
      apply (fold_step_inj (N.pos w)); [lia | exact Heq].
    + cbn [fst]. apply (fold_step_inj (N.pos w)). lia.
  - destruct (N.ltb_spec MIN (N.pos w)) as [Hlt | Hge].
    + rewrite !fst_count. intros Heq. apply IH in Heq; [| lia].
      apply (fold_step_inj (N.pos w)); [lia | exact Heq].
    + cbn [fst]. apply (fold_step_inj (N.pos w)). lia.
Qed.

(** X2.  With MIN_INDEX_WIDTH >= 1 and 2 <= MAX_ID_WIDTH < 128 (every
    shift is then below the width of [resTableIndex]) the mixer is
    injective: different identifiers get different hashes, so two
    identifiers collide in the table only through the masks. *)
Theorem integerHash_injective (MIN MAX x y : N) :
  1 <= MIN -> 2 <= MAX -> MAX < 2 * (sizeof_resTableIndex * CHAR_BIT) ->
  x <> y ->
  integerHash MIN MAX x <> integerHash MIN MAX y.
Proof.
  intros Hmin Hmax _ Hne Heq. apply Hne. revert Heq.
  unfold integerHash, integerHash_do.
  destruct MAX as [|w]; [lia |].
  apply integerHash_loop_inj; assumption.
Qed.

Lemma integerHash_injective_witness :
  integerHash 4 32 7 <> integerHash 4 32 (7 + 2 ^ 16).
Proof.
  apply (integerHash_injective 4 32 7 (7 + 2 ^ 16));
    [lia | lia | reflexivity | discriminate].
Defined.

Lemma fold_step_bound (w v n : N) : v < 2 ^ n -> fold_step w v < 2 ^ n.
Proof.
  intros Hv.
  assert (Hhigh : forall m, n <= m -> N.testbit v m = false).
  { intros m Hm. rewrite <- (N.mod_small v (2 ^ n)) by assumption.
    apply N.mod_pow2_bits_high. assumption. }
  assert (Heq : fold_step w v mod 2 ^ n = fold_step w v).
  { apply N.bits_inj. intros m.
    destruct (N.lt_ge_cases m n) as [Hlt | Hge].
    - apply N.mod_pow2_bits_low. assumption.
    - rewrite N.mod_pow2_bits_high by assumption.
      unfold fold_step. rewrite N.lxor_spec, N.shiftr_spec by lia.
      rewrite !Hhigh by lia. reflexivity. }
  rewrite <- Heq. apply N.mod_lt, N.pow_nonzero. discriminate.
Qed.

Lemma integerHash_loop_bound (MIN : N) (w : positive) (n : N) :
  forall v, v < 2 ^ n -> fst (integerHash_loop MIN w v) < 2 ^ n.
Proof.
  induction w as [w IH | w IH |]; intros v Hv; cbn [integerHash_loop].
  - destruct (MIN <? N.pos w).
    + rewrite fst_count. apply IH, fold_step_bound, Hv.
    + cbn [fst]. apply (fold_step_bound (N.pos w)), Hv.
  - destruct (MIN <? N.pos w).
    + rewrite fst_count. apply IH, fold_step_bound, Hv.
    + cbn [fst]. apply (fold_step_bound (N.pos w)), Hv.
  - cbn [fst]. apply (fold_step_bound 0), Hv.
Qed.

(** X3.  The mixer sets no bit above the width of its input: an
    identifier below [2 ^ n] has a hash below [2 ^ n], whatever the
    widths. *)
Theorem integerHash_bound (MIN MAX v n : N) :
  v < 2 ^ n -> integerHash MIN MAX v < 2 ^ n.
Proof.
  intros Hv. unfold integerHash, integerHash_do. destruct MAX as [|w].
  - cbn [fst]. apply (fold_step_bound 0), Hv.
  - apply integerHash_loop_bound, Hv.
Qed.

Lemma integerHash_bound_witness : integerHash 4 32 1000 < 2 ^ 10.
Proof. apply (integerHash_bound 4 32 1000 10). reflexivity. Defined.

(** ** More on string identifiers *)

Lemma strcmp_eq0_sym (a : list byte) :
  forall b, strcmp_eq0 a b = strcmp_eq0 b a.
Proof.
  induction a as [|x a IH]; intros [|y b]; cbn [strcmp_eq0]; try reflexivity.
  rewrite (N.eqb_sym (Byte.to_N y) (Byte.to_N x)).
  destruct (N.eqb_spec (Byte.to_N x) (Byte.to_N y)) as [E | _];
    [| reflexivity].
  rewrite E, IH. reflexivity.
Qed.

Lemma strcmp_eq0_refl (a : list byte) : strcmp_eq0 a a = true.
Proof.
  induction a as [|x a IH]; cbn [strcmp_eq0]; [reflexivity |].
  rewrite N.eqb_refl, IH. destruct (Byte.to_N x =? 0); reflexivity.
Qed.

Ltac eqb_cases :=
  repeat match goal with
         | H : context [N.eqb ?p ?q] |- _ => destruct (N.eqb_spec p q)
         | |- context [N.eqb ?p ?q] => destruct (N.eqb_spec p q)
         end;
  try discriminate; try reflexivity; try congruence.

Lemma strcmp_eq0_trans (a : list byte) :
  forall b c,
    strcmp_eq0 a b = true -> strcmp_eq0 b c = true -> strcmp_eq0 a c = true.
Proof.
  induction a as [|x a IH]; intros [|y b] [|z c]; cbn [strcmp_eq0];
    intros Hab Hbc; eqb_cases.
  eapply IH; eassumption.
Qed.

(** Strings that [strcmp] finds equal go through the hash loop alike. *)
Lemma stringHash_loop_strcmp (a : list byte) :
  forall b lane h,
    strcmp_eq0 a b = true ->
    stringHash_loop a lane h = stringHash_loop b lane h.
Proof.
  induction a as [|x a IH]; intros [|y b] lane h; cbn [strcmp_eq0];
    try reflexivity.
  - intros Hy. cbn [stringHash_loop]. rewrite Hy. reflexivity.
  - intros Hx. cbn [stringHash_loop]. rewrite Hx. reflexivity.
  - destruct (N.eqb_spec (Byte.to_N x) (Byte.to_N y)) as [E | _];
      [| discriminate].
    cbn [stringHash_loop]. rewrite E.
    destruct (Byte.to_N y =? 0); [reflexivity |].
    intros Hab.
    destruct lane as [|[|[|lane]]]; apply IH; assumption.
Qed.

(** X4.  [stringId::operator ==] is symmetric and transitive, and an
    identifier compares equal to itself exactly when its backing pointer
    is not null. *)
Theorem stringId_eqb_laws (a b c : stringId) :
  stringId_eqb a b = stringId_eqb b a /\
  (stringId_eqb a b = true -> stringId_eqb b c = true ->
   stringId_eqb a c = true) /\
  (stringId_eqb a a = true <-> pStr a <> None).
Proof.
  unfold stringId_eqb. split_and!.
  - destruct (pStr a), (pStr b); try reflexivity. apply strcmp_eq0_sym.
  - destruct (pStr a), (pStr b), (pStr c); try discriminate.
    apply strcmp_eq0_trans.
  - destruct (pStr a).
    + rewrite strcmp_eq0_refl. split; [discriminate | reflexivity].
    + split; [discriminate | congruence].
Qed.

(** X5.  String identifiers that compare equal have the same hash, so
    [find] looks for an identifier in the chain where an equal one was
    linked. *)
Theorem stringId_hash_eqb (a b : stringId) :
  stringId_eqb a b = true -> stringId_hash a = stringId_hash b.
Proof.
  unfold stringId_eqb, stringId_hash, stringComposite.
  destruct (pStr a) as [p|], (pStr b) as [q|]; try discriminate.
  intros Heq. rewrite (stringHash_loop_strcmp p q _ _ Heq). reflexivity.
Qed.

Lemma stringId_hash_eqb_witness :
  stringId_hash (mk_stringId (Some (list_byte_of_string "pv:foo")) copyString)
  = stringId_hash
      (mk_stringId (Some (list_byte_of_string "pv:foo" ++ [x00; x41]))
         refString).
Proof.
  apply (stringId_hash_eqb
           (mk_stringId (Some (list_byte_of_string "pv:foo")) copyString)
           (mk_stringId (Some (list_byte_of_string "pv:foo" ++ [x00; x41]))
              refString)).
  vm_compute. reflexivity.
Defined.

(** ** Lawful identifier classes *)

Lemma intId_lawful (MIN MAX : N) : LawfulIdentifier (intId MIN MAX).
Proof.
  split; cbn.
  - intros a b. apply N.eqb_sym.
  - intros a b c Hab Hbc. apply N.eqb_eq in Hab, Hbc. apply N.eqb_eq.
    congruence.
  - intros a b Hab. apply N.eqb_eq in Hab. rewrite Hab. reflexivity.
Qed.

Lemma stringId_lawful : LawfulIdentifier stringId.
Proof.
  split; cbn; unfold stringId_eqb, stringId_hash, stringComposite.
  - intros a b. destruct (pStr a), (pStr b); try reflexivity.
    apply strcmp_eq0_sym.
  - intros a b c. destruct (pStr a), (pStr b), (pStr c); try discriminate.
    apply strcmp_eq0_trans.
  - intros a b. destruct (pStr a) as [p|], (pStr b) as [q|];
      try discriminate.
    intros Heq. rewrite (stringHash_loop_strcmp p q _ _ Heq). reflexivity.
Qed.

(** ** The table as a finite map *)

Section ResTableMap.

Context {ID : Type} `{Identifier ID} {T : Type} (idOf : T -> ID).
Implicit Types (t : resTable T) (idIn q : ID) (r res : T).

Lemma bucket_records t (i : N) r : r ∈ bucket t i -> r ∈ records t.
Proof.
  unfold bucket. intros Hr. apply elem_of_concat.
  destruct (pTable t !! N.to_nat i) as [l|] eqn:E; cbn in Hr;
    [eauto | inversion Hr].
Qed.

Lemma lookup_sound t q r :
  lookup idOf t q = Some r -> r ∈ records t /\ id_eqb (idOf r) q = true.
Proof.
  intros Hf. apply find_Some in Hf as [Hr Heq].
  split; [eapply bucket_records; eassumption | assumption].
Qed.

(** X6.  Looking up or removing an identifier that no record of the table
    compares equal to returns null and leaves the table as it is; this
    holds for every table state. *)
Theorem remove_absent t q :
  absent idOf t q ->
  lookup idOf t q = None /\ remove idOf t q = (None, t).
Proof.
  intros Habs.
  assert (Hf : find idOf (bucket t (hash t q)) q = None).
  { apply find_None. intros r Hr. apply Habs.
    eapply bucket_records; eassumption. }
  split; [exact Hf |].
  unfold remove, findDelete.
  pose proof (findDelete_chain_fst idOf (bucket t (hash t q)) q) as Hfst.
  rewrite Hf in Hfst.
  destruct (findDelete_chain idOf (bucket t (hash t q)) q) as [[r|] l'];
    cbn in Hfst; [discriminate | reflexivity].
Qed.

Lemma hash_id_hash t (a b : ID) : id_hash a = id_hash b -> hash t a = hash t b.
Proof. unfold hash. intros ->. reflexivity. Qed.

Section Lawful.

Context `{!LawfulIdentifier ID}.

Lemma distinct_ids_perm (l l' : list T) :
  l ≡ₚ l' -> distinct_ids idOf l -> distinct_ids idOf l'.
Proof.
  intros Hp. induction Hp as [| x l l' Hp IH | x y l | l l' l'' ? IH1 ? IH2];
    cbn [distinct_ids].
  - trivial.
  - intros [Hx Hl]. split; [| auto].
    intros y Hy. apply Hx. rewrite Hp. assumption.
  - intros [Hy [Hx Hl]]. split_and!.
    + intros z Hz. apply elem_of_cons in Hz as [-> | Hz].
      * rewrite id_eqb_sym. apply Hy. left.
      * apply Hx. assumption.
    + intros z Hz. apply Hy. right. assumption.
    + assumption.
  - auto.
Qed.

Lemma distinct_ids_eq (l : list T) (x y : T) :
  distinct_ids idOf l -> x ∈ l -> y ∈ l ->
  id_eqb (idOf x) (idOf y) = true -> x = y.
Proof.
  induction l as [|z l IH]; cbn [distinct_ids]; intros Hd Hx Hy Heq.
  - inversion Hx.
  - destruct Hd as [Hz Hl].
    apply elem_of_cons in Hx as [-> | Hx], Hy as [-> | Hy].
    + reflexivity.
    + rewrite (Hz y Hy) in Heq. discriminate.
    + rewrite id_eqb_sym, (Hz x Hx) in Heq. discriminate.
    + apply IH; assumption.
Qed.

(** A record with an identifier equal to [q] is on the chain that [q]
    hashes to. *)
Lemma equal_id_bucket t q r :
  table_inv idOf t -> r ∈ records t -> id_eqb (idOf r) q = true ->
  r ∈ bucket t (hash t q).
Proof.
  intros (_ & Hc & _) Hr Heq.
  apply elem_of_concat in Hr as (i & l & Hi & Hr).
  rewrite <- (hash_id_hash t (idOf r) q) by (apply id_hash_eqb; assumption).
  rewrite (Hc i l r Hi Hr), (bucket_of_nat t i l Hi). assumption.
Qed.

(** What [find] says about its chain holds for the whole table. *)
Lemma find_None_absent t q :
  table_inv idOf t ->
  find idOf (bucket t (hash t q)) q = None -> absent idOf t q.
Proof.
  intros Hinv Hf r Hr.
  destruct (id_eqb (idOf r) q) eqn:E; [| reflexivity].
  rewrite find_None in Hf. rewrite <- E. apply Hf.
  apply equal_id_bucket; assumption.
Qed.

Lemma lookup_complete t q r :
  table_inv idOf t -> distinct_ids idOf (records t) ->
  r ∈ records t -> id_eqb (idOf r) q = true ->
  lookup idOf t q = Some r.
Proof.
  intros Hinv Hd Hr Heq. unfold lookup.
  destruct (find idOf (bucket t (hash t q)) q) as [r'|] eqn:Hf.
  - pose proof (lookup_sound t q r' Hf) as [Hr' Heq'].
    f_equal. apply (distinct_ids_eq (records t)); try assumption.
    apply (id_eqb_trans _ q); [assumption |].
    rewrite id_eqb_sym. assumption.
  - apply (find_None_absent t q Hinv) in Hf.
    rewrite (Hf r Hr) in Heq. discriminate.
Qed.

Lemma lookup_iff t q r :
  table_inv idOf t -> distinct_ids idOf (records t) ->
  lookup idOf t q = Some r <->
  r ∈ records t /\ id_eqb (idOf r) q = true.
Proof.
  intros Hinv Hd. split.
  - apply lookup_sound.
  - intros [Hr Heq]. apply lookup_complete; assumption.
Qed.

(** X7.  In a table that satisfies its invariants and holds no two records
    with equal identifiers, [lookup] returns a record exactly when that
    record is in the table and its identifier compares equal to the
    query. *)
Theorem lookup_spec t q r :
  table_inv idOf t -> distinct_ids idOf (records t) ->
  lookup idOf t q = Some r <->
  r ∈ records t /\ id_eqb (idOf r) q = true.
Proof.
  intros Hinv Hd. split.
  - intros Hf. apply find_Some in Hf as [Hr Heq].
    split; [eapply bucket_records; eassumption | assumption].
  - intros [Hr Heq]. unfold lookup.
    pose proof (equal_id_bucket t q r Hinv Hr Heq) as Hb.
    destruct (find idOf (bucket t (hash t q)) q) as [r'|] eqn:Hf.
    + apply find_Some in Hf as [Hr' Heq'].
      f_equal. apply (distinct_ids_eq (records t)); try assumption.
      * eapply bucket_records; eassumption.
      * apply (id_eqb_trans _ q); [assumption |].
        rewrite id_eqb_sym. assumption.
    + rewrite find_None in Hf. rewrite (Hf r Hb) in Heq. discriminate.
Qed.

Lemma option_ext (o1 o2 : option T) :
  (forall x, o1 = Some x <-> o2 = Some x) -> o1 = o2.
Proof.
  intros Hext. destruct o1 as [x|], o2 as [y|]; try reflexivity.
  - apply Hext. reflexivity.
  - symmetry. apply Hext. reflexivity.
  - apply Hext. reflexivity.
Qed.

Lemma add_status (alloc_ok : bool) t res :
  fst (add idOf alloc_ok t res) = 0%Z \/
  fst (add idOf alloc_ok t res) = (-1)%Z.
Proof.
  unfold add. destruct (find idOf _ (idOf res)); [right | left]; reflexivity.
Qed.

Lemma add_fresh_iff (alloc_ok : bool) t res :
  table_inv idOf t -> nInUse t < 2 ^ 31 ->
  fst (add idOf alloc_ok t res) = 0%Z <-> absent idOf t (idOf res).
Proof.
  intros Hinv Hsmall.
  destruct (add_split_spec idOf alloc_ok t Hinv Hsmall) as (Hinv0 & _ & Hp).
  unfold add.
  set (t0 := add_split idOf alloc_ok t) in *.
  destruct (find idOf (bucket t0 (hash t0 (idOf res))) (idOf res))
    as [r'|] eqn:Hf; cbn [fst].
  - split; [discriminate |]. intros Habs.
    apply lookup_sound in Hf as [Hr' Heq]. rewrite Hp in Hr'.
    rewrite (Habs r' Hr') in Heq. discriminate.
  - split; [| reflexivity]. intros _ r Hr.
    apply (find_None_absent t0 _ Hinv0 Hf). rewrite Hp. assumption.
Qed.

Lemma add_distinct (alloc_ok : bool) t res :
  table_inv idOf t -> nInUse t < 2 ^ 31 ->
  distinct_ids idOf (records t) ->
  distinct_ids idOf (records (snd (add idOf alloc_ok t res))).
Proof.
  intros Hinv Hsmall Hd.
  destruct (add_split_spec idOf alloc_ok t Hinv Hsmall) as (Hinv0 & _ & Hp).
  destruct (find idOf (bucket (add_split idOf alloc_ok t)
              (hash (add_split idOf alloc_ok t) (idOf res))) (idOf res))
    as [r'|] eqn:Hf.
  - rewrite (add_duplicate idOf alloc_ok t res r' Hf). cbn [snd].
    apply (distinct_ids_perm (records t)); [symmetry |]; assumption.
  - destruct (add_success idOf alloc_ok t res Hinv Hsmall Hf)
      as (Hst & _ & _ & Hp1 & _).
    apply (distinct_ids_perm (res :: records t)); [symmetry; assumption |].
    split; [| assumption].
    intros y Hy. rewrite id_eqb_sym.
    apply (proj1 (add_fresh_iff alloc_ok t res Hinv Hsmall) Hst). assumption.
Qed.

Lemma remove_distinct t q :
  table_inv idOf t -> nInUse t < 2 ^ 32 ->
  distinct_ids idOf (records t) ->
  distinct_ids idOf (records (snd (remove idOf t q))).
Proof.
  intros Hinv Hsmall Hd.
  destruct (remove_spec idOf t q Hinv Hsmall) as [_ Hres].
  destruct (fst (remove idOf t q)) as [r|].
  - destruct Hres as [Hp _].
    apply (distinct_ids_perm _ _ Hp) in Hd. apply Hd.
  - rewrite Hres. assumption.
Qed.

Lemma run_ops_distinct (ops : list (tableOp (T := T))) :
  forall t,
    table_inv idOf t -> nInUse t + N.of_nat (length ops) < 2 ^ 31 ->
    distinct_ids idOf (records t) ->
    distinct_ids idOf (records (run_ops idOf ops t)).
Proof.
  induction ops as [|o ops IH]; intros t Hinv Hsmall Hd;
    cbn [run_ops fold_left]; [assumption |].
  cbn [length] in Hsmall.
  destruct (run_op_inv idOf t o Hinv ltac:(lia)) as [Hinv1 Hn1].
  apply IH; [assumption | lia |].
  destruct o as [alloc_ok res | idIn]; cbn [run_op].
  - apply add_distinct; [assumption | lia | assumption].
  - apply remove_distinct; [assumption | | assumption].
    change (2 ^ 32) with (2 * 2 ^ 31). lia.
Qed.

(** X8.  After any sequence of [add] and [remove] calls on a freshly
    constructed table, no two records of the table have identifiers that
    compare equal. *)
Theorem unique_identifiers (ops : list (tableOp (T := T))) :
  minIndexBitWidth ID < 30 ->
  N.of_nat (length ops) < 2 ^ 31 ->
  distinct_ids idOf (records (run_ops idOf ops (resTable_init ID T))).
Proof.
  intros Hmin Hlen.
  apply run_ops_distinct.
  - apply resTable_init_inv. assumption.
  - rewrite (resTable_init_fields Hmin). cbn [nInUse]. lia.
  - rewrite (resTable_init_fields Hmin). unfold records. cbn [pTable].
    assert (Hnil : forall n, concat (replicate n (@nil T)) = [])
      by (induction n; cbn; auto).
    rewrite Hnil. exact I.
Qed.

(** X9.  For a lawful identifier class (the [LawfulIdentifier] of this
    section: [operator ==] symmetric and transitive, [hash] equal on
    equal identifiers) and a table that satisfies its invariants, holds
    fewer than 2^31 records and no two records with equal identifiers:
    [add] succeeds exactly when no record of the table has an identifier
    equal to the new one, and returns Duplicate otherwise.  After a
    successful [add] a [lookup] of an identifier equal to the new one
    returns the new record and every other [lookup] returns what it
    returned before; after a Duplicate every [lookup] returns what it
    returned before. *)
Theorem add_lookup (alloc_ok : bool) t res q :
  table_inv idOf t -> nInUse t < 2 ^ 31 ->
  distinct_ids idOf (records t) ->
  let status := fst (add idOf alloc_ok t res) in
  let t' := snd (add idOf alloc_ok t res) in
  (status = 0%Z <-> absent idOf t (idOf res)) /\
  (status = (-1)%Z <-> ~ absent idOf t (idOf res)) /\
  lookup idOf t' q =
    (if (status =? 0)%Z && id_eqb (idOf res) q then Some res
     else lookup idOf t q).
Proof.
  intros Hinv Hsmall Hd. cbv zeta.
  pose proof (add_fresh_iff alloc_ok t res Hinv Hsmall) as Hiff.
  pose proof (add_inv idOf alloc_ok t res Hinv Hsmall) as [Hinv' _].
  pose proof (add_distinct alloc_ok t res Hinv Hsmall Hd) as Hd'.
  split; [exact Hiff |]. split.
  { destruct (add_status alloc_ok t res) as [E | E]; rewrite E.
    - split; [discriminate |]. intros Hn. exfalso. apply Hn, Hiff, E.
    - split; [| reflexivity]. intros _ Habs. apply Hiff in Habs.
      rewrite E in Habs. discriminate. }
  destruct (add_split_spec idOf alloc_ok t Hinv Hsmall) as (_ & _ & Hp).
  destruct (find idOf (bucket (add_split idOf alloc_ok t)
              (hash (add_split idOf alloc_ok t) (idOf res))) (idOf res))
    as [r'|] eqn:Hf.
  - rewrite (add_duplicate idOf alloc_ok t res r' Hf) in *.
    cbn [fst snd] in *. cbn [Z.eqb andb].
    apply option_ext. intros x.
    rewrite (lookup_iff _ q x Hinv' Hd'),
      (lookup_iff t q x Hinv Hd), Hp. reflexivity.
  - destruct (add_success idOf alloc_ok t res Hinv Hsmall Hf)
      as (Hst & _ & _ & Hp1 & _).
    rewrite Hst. cbn [Z.eqb andb].
    destruct (id_eqb (idOf res) q) eqn:E.
    + apply lookup_complete; try assumption.
      rewrite Hp1. left.
    + apply option_ext. intros x.
      rewrite (lookup_iff _ q x Hinv' Hd'),
        (lookup_iff t q x Hinv Hd), Hp1, elem_of_cons.
      split; [| tauto].
      intros [[-> | Hx] Hq]; [congruence | tauto].
Qed.

(** X10.  For a lawful identifier class (the [LawfulIdentifier] of this
    section) and a table that satisfies its invariants, holds fewer than
    2^32 records and no two records with equal identifiers: [remove]
    returns what [lookup] returns.  After it has removed a record, a
    [lookup] of an identifier equal to that of the record returns null
    and every other [lookup] returns what it returned before; the table
    keeps its invariants and the records keep distinct identifiers. *)
Theorem remove_lookup t q q' :
  table_inv idOf t -> nInUse t < 2 ^ 32 ->
  distinct_ids idOf (records t) ->
  let t' := snd (remove idOf t q) in
  fst (remove idOf t q) = lookup idOf t q /\
  table_inv idOf t' /\
  distinct_ids idOf (records t') /\
  lookup idOf t' q' =
    match lookup idOf t q with
    | Some r => if id_eqb (idOf r) q' then None else lookup idOf t q'
    | None => lookup idOf t q'
    end.
Proof.
  intros Hinv Hsmall Hd. cbv zeta.
  pose proof (remove_distinct t q Hinv Hsmall Hd) as Hd'.
  destruct (remove_spec idOf t q Hinv Hsmall) as [Hinv' Hres].
  rewrite remove_fst in *.
  split_and!; try assumption; try reflexivity.
  destruct (lookup idOf t q) as [r|] eqn:El; [| rewrite Hres; reflexivity].
  destruct Hres as [Hp _].
  pose proof (distinct_ids_perm _ _ Hp Hd) as [Hr _].
  destruct (id_eqb (idOf r) q') eqn:E.
  - destruct (lookup idOf (snd (remove idOf t q)) q') as [x|] eqn:Ex;
      [| reflexivity].
    apply lookup_sound in Ex as [Hx Hxq].
    assert (Hrx : id_eqb (idOf r) (idOf x) = true).
    { apply (id_eqb_trans _ q'); [assumption |].
      rewrite id_eqb_sym. assumption. }
    rewrite (Hr x Hx) in Hrx. discriminate.
  - apply option_ext. intros x.
    rewrite (lookup_iff _ q' x Hinv' Hd'),
      (lookup_iff t q' x Hinv Hd), Hp, elem_of_cons.
    split; [tauto |].
    intros [[-> | Hx] Hq]; [congruence | tauto].
Qed.

End Lawful.

(** Without a split step, removing what was added gives the very same
    table. *)
Lemma add_remove_same (alloc_ok : bool) t r :
  table_inv idOf t -> nInUse t < 2 ^ 31 ->
  id_eqb (idOf r) (idOf r) = true ->
  absent idOf t (idOf r) ->
  nInUse t <= tableSize t ->
  snd (remove idOf (snd (add idOf alloc_ok t r)) (idOf r)) = t.
Proof.
  intros ([k Hok] & _ & _) Hsmall Hrefl Habs Hle.
  assert (Hf : find idOf (bucket t (hash t (idOf r))) (idOf r) = None).
  { apply find_None. intros x Hx. apply Habs.
    eapply bucket_records; eassumption. }
  pose proof (hash_in_range k t (idOf r) Hok) as Hix.
  unfold add. rewrite (add_split_fields idOf alloc_ok t Hle), Hf.
  cbn [snd]. set (ix := hash t (idOf r)) in *.
  match goal with |- snd (remove _ ?u _) = _ => set (t1 := u) end.
  assert (Hh : hash t1 (idOf r) = ix) by (apply hash_fields; reflexivity).
  assert (Hb : bucket t1 ix = r :: bucket t ix).
  { unfold bucket at 1. cbn [pTable t1].
    rewrite list_lookup_insert_eq by assumption. reflexivity. }
  unfold remove, findDelete. rewrite Hh, Hb. cbn [findDelete_chain].
  rewrite Hrefl. cbn [snd pTable nextSplitIndex hashIxMask hashIxSplitMask
                      nInUse t1].
  rewrite list_insert_insert_eq.
  rewrite (list_insert_id (pTable t) (N.to_nat ix) (bucket t ix))
    by (apply bucket_lookup; assumption).
  rewrite (to_unsigned_small (nInUse t + 1))
    by (change (2 ^ 32) with (2 * 2 ^ 31); lia).
  rewrite unsigned_pred_small
    by (change (2 ^ 32) with (2 * 2 ^ 31); lia).
  replace (nInUse t + 1 - 1) with (nInUse t) by lia.
  destruct t; reflexivity.
Qed.

(** X11.  For a table that satisfies its invariants and holds fewer than
    2^31 records, and a record whose identifier compares equal to itself
    (which a null string identifier does not) and to the identifier of no
    record of the table: adding the record and then removing its
    identifier gives back a table with the records and the [nInUse] it
    had before the [add]; it is the very same table unless the [add] took
    a split step, which changes the layout only. *)
Theorem add_remove_restores (alloc_ok : bool) t r :
  table_inv idOf t -> nInUse t < 2 ^ 31 ->
  id_eqb (idOf r) (idOf r) = true ->
  absent idOf t (idOf r) ->
  let t1 := snd (add idOf alloc_ok t r) in
  let t2 := snd (remove idOf t1 (idOf r)) in
  records t2 ≡ₚ records t /\
  nInUse t2 = nInUse t /\
  table_inv idOf t2 /\
  (if tableSize t <? nInUse t then True else t2 = t).
Proof.
  intros Hinv Hsmall Hrefl Habs. cbv zeta.
  destruct (add_split_spec idOf alloc_ok t Hinv Hsmall) as (Hinv0 & _ & Hp0).
  assert (Hf : find idOf (bucket (add_split idOf alloc_ok t)
                 (hash (add_split idOf alloc_ok t) (idOf r))) (idOf r) = None).
  { apply find_None. intros x Hx. apply Habs. rewrite <- Hp0.
    eapply bucket_records; eassumption. }
  destruct (add_success idOf alloc_ok t r Hinv Hsmall Hf)
    as (_ & Hinv1 & Hu1 & Hp1 & Hh1 & Hb1).
  destruct (N.ltb_spec (tableSize t) (nInUse t)) as [_ | Hle].
  2: { rewrite (add_remove_same alloc_ok t r Hinv Hsmall Hrefl Habs Hle).
       split_and!; reflexivity || assumption. }
  set (t1 := snd (add idOf alloc_ok t r)) in *.
  destruct (remove_spec idOf t1 (idOf r) Hinv1
              ltac:(change (2 ^ 32) with (2 * 2 ^ 31); lia)) as [Hinv2 Hres].
  assert (Hrem : fst (remove idOf t1 (idOf r)) = Some r).
  { rewrite remove_fst. unfold lookup. rewrite Hb1. cbn. rewrite Hrefl.
    reflexivity. }
  rewrite Hrem in Hres. destruct Hres as [Hp2 Hu2].
  split_and!.
  - apply (Permutation_cons_inv (a := r)). rewrite <- Hp2. exact Hp1.
  - lia.
  - assumption.
  - exact I.
Qed.

End ResTableMap.

(** *** Examples *)

Lemma table432_distinct (n : nat) :
  N.of_nat n < 2 ^ 31 -> distinct_ids intRes_id (records (table432 n)).
Proof.
  intros Hn. unfold table432.
  pose proof (@run_ops_distinct _ _ _ intRes_id (intId_lawful 4 32)
    (List.map (fun i => op_add true (r432 (N.of_nat i))) (seq 0 n))
    (resTable_init (intId 4 32) (intRes 4 32 unit))) as Hrun.
  rewrite length_map, length_seq in Hrun.
  apply Hrun.
  - apply resTable_init_inv. vm_compute. reflexivity.
  - exact Hn.
  - vm_compute. exact I.
Qed.

Lemma remove_absent_witness :
  lookup intRes_id (table432 17) (mk_intId 100) = None /\
  remove intRes_id (table432 17) (mk_intId 100) = (None, table432 17).
Proof.
  apply (remove_absent intRes_id (table432 17) (mk_intId 100)).
  apply absent_check. vm_compute. reflexivity.
Defined.

Lemma lookup_spec_witness :
  lookup intRes_id (table432 17) (mk_intId 3) = Some (r432 3) <->
  r432 3 ∈ records (table432 17) /\
  id_eqb (intRes_id (r432 3)) (mk_intId 3) = true.
Proof.
  apply (@lookup_spec _ _ _ intRes_id (intId_lawful 4 32) (table432 17)
           (mk_intId 3) (r432 3)).
  - apply (table432_inv 17). vm_compute. reflexivity.
  - apply (table432_distinct 17). vm_compute. reflexivity.
Defined.

Lemma unique_identifiers_witness :
  distinct_ids intRes_id
    (records (run_ops intRes_id
                [op_add true (r432 1); op_add true (r432 1);
                 op_add false (r432 2); op_remove (mk_intId 1)]
                (resTable_init (intId 4 32) (intRes 4 32 unit)))).
Proof.
  apply (@unique_identifiers _ _ _ intRes_id (intId_lawful 4 32)
           [op_add true (r432 1); op_add true (r432 1);
            op_add false (r432 2); op_remove (mk_intId 1)]).
  - vm_compute. reflexivity.
  - vm_compute. reflexivity.
Defined.

Lemma add_lookup_witness :
  let t := table432 17 in
  let status := fst (add intRes_id true t (r432 100)) in
  let t' := snd (add intRes_id true t (r432 100)) in
  (status = 0%Z <-> absent intRes_id t (intRes_id (r432 100))) /\
  (status = (-1)%Z <-> ~ absent intRes_id t (intRes_id (r432 100))) /\
  lookup intRes_id t' (mk_intId 3) =
    (if (status =? 0)%Z && id_eqb (intRes_id (r432 100)) (mk_intId 3)
     then Some (r432 100)
     else lookup intRes_id t (mk_intId 3)).
Proof.
  apply (@add_lookup _ _ _ intRes_id (intId_lawful 4 32) true (table432 17)
           (r432 100) (mk_intId 3)).
  - apply (table432_inv 17). vm_compute. reflexivity.
  - vm_compute. reflexivity.
  - apply (table432_distinct 17). vm_compute. reflexivity.
Defined.

Lemma remove_lookup_witness :
  let t := table432 17 in
  let t' := snd (remove intRes_id t (mk_intId 3)) in
  fst (remove intRes_id t (mk_intId 3)) = lookup intRes_id t (mk_intId 3) /\
  table_inv intRes_id t' /\
  distinct_ids intRes_id (records t') /\
  lookup intRes_id t' (mk_intId 5) =
    match lookup intRes_id t (mk_intId 3) with
    | Some r => if id_eqb (intRes_id r) (mk_intId 5) then None
                else lookup intRes_id t (mk_intId 5)
    | None => lookup intRes_id t (mk_intId 5)
    end.
Proof.
  apply (@remove_lookup _ _ _ intRes_id (intId_lawful 4 32) (table432 17)
           (mk_intId 3) (mk_intId 5)).
  - apply (table432_inv 17). vm_compute. reflexivity.
  - vm_compute. reflexivity.
  - apply (table432_distinct 17). vm_compute. reflexivity.
Defined.

Lemma add_remove_restores_witness :
  let t := table432 17 in
  let t1 := snd (add intRes_id true t (r432 100)) in
  let t2 := snd (remove intRes_id t1 (intRes_id (r432 100))) in
  records t2 ≡ₚ records t /\
  nInUse t2 = nInUse t /\
  table_inv intRes_id t2 /\
  (if tableSize t <? nInUse t then True else t2 = t).
Proof.
  apply (add_remove_restores intRes_id true (table432 17) (r432 100)).
  - apply (table432_inv 17). vm_compute. reflexivity.
  - vm_compute. reflexivity.
  - vm_compute. reflexivity.
  - apply absent_check. vm_compute. reflexivity.
Defined.

(** ** The chains below [tableSize ()] *)

Section ResTableChains.

Context {ID : Type} `{Identifier ID} {T : Type} (idOf : T -> ID).
Implicit Types (t : resTable T).

Lemma concat_all_nil (ls : list (list T)) :
  Forall (fun l => l = []) ls -> concat ls = [].
Proof.
  induction 1 as [|l ls -> _ IH]; [reflexivity | exact IH].
Qed.

Lemma chains_from_take t (n : nat) :
  forall start : nat,
    (start + n <= length (pTable t))%nat ->
    chains_from t start n = take n (drop start (pTable t)).
Proof.
  unfold chains_from.
  induction n as [|n IH]; intros start Hlen; [reflexivity |].
  cbn [seq fmap list_fmap].
  assert (Hb : pTable t !! start = Some (bucket t (N.of_nat start))).
  { rewrite <- (Nat2N.id start) at 1. apply bucket_lookup.
    rewrite Nat2N.id. lia. }
  rewrite (drop_S _ _ _ Hb). cbn [take]. f_equal. apply IH. lia.
Qed.

Lemma tableSize_masks k t :
  masks_ok k t -> tableSize t = 2 ^ k + nextSplitIndex t.
Proof.
  intros (Hk & Hm & _ & Hn & _). unfold tableSize.
  pose proof (pow2_pos k). pose proof (pow2_le_32 k ltac:(lia)).
  rewrite Hm, ones_pow2.
  pose proof (pow2_succ k). pose proof (pow2_le_32 (k + 1) ltac:(lia)).
  rewrite to_unsigned_small by lia. lia.
Qed.

Lemma tableSize_le_length k t :
  masks_ok k t -> (N.to_nat (tableSize t) <= length (pTable t))%nat.
Proof.
  intros Hok. rewrite (tableSize_masks k t Hok).
  destruct Hok as (_ & _ & _ & Hn & Hlen). rewrite pow2_succ in Hlen. lia.
Qed.

(** The chains from [tableSize ()] on are empty. *)
Lemma high_chains_empty t :
  table_inv idOf t ->
  concat (drop (N.to_nat (tableSize t)) (pTable t)) = [].
Proof.
  intros ([k Hok] & Hc & _). apply concat_all_nil, Forall_forall.
  intros l Hl. apply list_elem_of_lookup in Hl as [j Hj].
  rewrite lookup_drop in Hj.
  destruct l as [|r l]; [reflexivity | exfalso].
  pose proof (Hc _ _ r Hj ltac:(left)) as Hh.
  pose proof (hash_lt k t (idOf r) Hok) as Hlt.
  rewrite (tableSize_masks k t Hok) in *. lia.
Qed.

Lemma table_chains t :
  table_inv idOf t ->
  concat (chains_from t 0 (N.to_nat (tableSize t))) = records t.
Proof.
  intros Hinv. pose proof Hinv as ([k Hok] & _ & _).
  rewrite chains_from_take
    by (pose proof (tableSize_le_length k t Hok); lia).
  rewrite drop_0. unfold records.
  rewrite <- (take_drop (N.to_nat (tableSize t)) (pTable t)) at 2.
  rewrite concat_app, (high_chains_empty t Hinv), app_nil_r. reflexivity.
Qed.

(** *** verify *)

Lemma verify_chain_ok t (i : N) (l : list T) :
  forall count,
    (forall r, r ∈ l -> hash t (idOf r) = i) ->
    count + N.of_nat (length l) < 2 ^ 32 ->
    verify_chain idOf t i l count = Some (count + N.of_nat (length l)).
Proof.
  induction l as [|x l IH]; intros count Hall Hsmall; cbn [verify_chain].
  - cbn. rewrite N.add_0_r. reflexivity.
  - rewrite (Hall x) by left. rewrite N.eqb_refl.
    cbn [length] in *.
    rewrite to_unsigned_small by lia.
    rewrite IH; [f_equal; lia | | lia].
    intros r Hr. apply Hall. right. assumption.
Qed.

Lemma verify_fold_ok t (n : nat) :
  forall (start : nat) (total : N),
    consistent idOf t ->
    total + N.of_nat (length (concat (chains_from t start n))) < 2 ^ 32 ->
    fold_left (verify_bucket idOf t) (seq start n) (Some total)
    = Some (total + N.of_nat (length (concat (chains_from t start n)))).
Proof.
  unfold chains_from.
  induction n as [|n IH]; intros start total Hc Hsmall.
  - cbn. rewrite N.add_0_r. reflexivity.
  - cbn [seq fmap list_fmap concat fold_left] in *.
    rewrite length_app in *.
    unfold verify_bucket at 2.
    rewrite verify_chain_ok;
      [| intros r Hr; apply (consistent_bucket idOf); assumption | lia].
    rewrite N.add_0_l, to_unsigned_small by lia.
    rewrite IH; [f_equal; lia | assumption | lia].
Qed.

Lemma verify_inv t :
  table_inv idOf t -> nInUse t < 2 ^ 32 -> verify idOf t = true.
Proof.
  intros Hinv Hsmall. pose proof Hinv as (_ & Hc & Hcnt).
  unfold verify. cbv zeta.
  unfold counted in Hcnt. rewrite sum_length_concat in Hcnt.
  fold (records t) in Hcnt.
  rewrite verify_fold_ok; try assumption; rewrite (table_chains t Hinv).
  - rewrite N.add_0_l, <- Hcnt. apply N.eqb_refl.
  - lia.
Qed.

(** X12.  [verify] finds nothing wrong in any table obtained from a
    freshly constructed one by [add] and [remove] calls: no assertion
    fails. *)
Theorem verify_passes (ops : list (tableOp (T := T))) :
  minIndexBitWidth ID < 30 ->
  N.of_nat (length ops) < 2 ^ 31 ->
  verify idOf (run_ops idOf ops (resTable_init ID T)) = true.
Proof.
  intros Hmin Hlen.
  destruct (run_ops_inv idOf ops (resTable_init ID T)) as [Hinv Hn].
  - apply resTable_init_inv. assumption.
  - rewrite (resTable_init_fields Hmin). cbn [nInUse]. lia.
  - apply verify_inv; [assumption |].
    assert (H0 : nInUse (resTable_init ID T) = 0)
      by (rewrite (resTable_init_fields Hmin); reflexivity).
    rewrite H0 in Hn. change (2 ^ 32) with (2 * 2 ^ 31). lia.
Qed.

Lemma verify_chain_Some t (i : N) (l : list T) :
  forall count c,
    verify_chain idOf t i l count = Some c ->
    forall r, r ∈ l -> hash t (idOf r) = i.
Proof.
  induction l as [|x l IH]; intros count c Hv r Hr; [inversion Hr |].
  cbn [verify_chain] in Hv.
  destruct (N.eqb_spec (hash t (idOf x)) i) as [E | _]; [| discriminate].
  apply elem_of_cons in Hr as [-> | Hr]; [exact E | eauto].
Qed.

Lemma verify_fold_None t (l : list nat) :
  fold_left (verify_bucket idOf t) l None = None.
Proof. induction l as [|i l IH]; [reflexivity | exact IH]. Qed.

Lemma verify_fold_Some t (n : nat) :
  forall (start : nat) (total c : N),
    fold_left (verify_bucket idOf t) (seq start n) (Some total) = Some c ->
    forall (i : nat) r,
      (start <= i < start + n)%nat -> r ∈ bucket t (N.of_nat i) ->
      hash t (idOf r) = N.of_nat i.
Proof.
  induction n as [|n IH]; intros start total c Hv i r Hi Hr; [lia |].
  cbn [seq fold_left] in Hv. unfold verify_bucket at 2 in Hv.
  destruct (verify_chain idOf t (N.of_nat start)
              (bucket t (N.of_nat start)) 0) as [cnt|] eqn:Hch.
  - destruct (decide (i = start)) as [-> | Hne].
    + eapply verify_chain_Some; eassumption.
    + eapply IH; [exact Hv | lia | exact Hr].
  - rewrite verify_fold_None in Hv. discriminate.
Qed.

(** X13.  When [verify] passes, every record on a chain below
    [tableSize ()] is on the chain its identifier hashes to. *)
Theorem verify_sound t (i : N) r :
  verify idOf t = true ->
  i < tableSize t -> r ∈ bucket t i -> hash t (idOf r) = i.
Proof.
  unfold verify. cbv zeta. intros Hv Hi Hr.
  destruct (fold_left (verify_bucket idOf t)
              (seq 0 (N.to_nat (tableSize t))) (Some 0)) as [c|] eqn:Hf;
    [| discriminate].
  rewrite <- (N2Nat.id i) in Hr |- *.
  rewrite (N2Nat.id i) at 1.
  rewrite <- (N2Nat.id i) at 1.
  eapply verify_fold_Some; [exact Hf | lia | exact Hr].
Qed.

(** *** traverseConst *)

Lemma fold_left_chains {S : Type} (g : S -> list T -> S) t (n : nat) :
  forall (start : nat) (s : S),
    fold_left (fun s i => g s (bucket t (N.of_nat i))) (seq start n) s
    = fold_left g (chains_from t start n) s.
Proof.
  unfold chains_from.
  induction n as [|n IH]; intros start s; [reflexivity |].
  cbn [seq fmap list_fmap fold_left]. apply IH.
Qed.

Lemma fold_left_concat {S : Type} (f : S -> T -> S) (ls : list (list T)) :
  forall s : S,
    fold_left (fun s l => fold_left f l s) ls s = fold_left f (concat ls) s.
Proof.
  induction ls as [|l ls IH]; intros s; [reflexivity |].
  cbn [fold_left concat]. rewrite fold_left_app. apply IH.
Qed.

(** X14.  [traverseConst] calls the member function once on every record
    of the table, chain after chain in the order of the bucket indices
    and each chain from its head, that is [nInUse] times in all. *)
Theorem traverseConst_records {S : Type} (pCB : T -> S -> S) t (s : S) :
  table_inv idOf t ->
  traverseConst pCB t s = fold_left (fun s r => pCB r s) (records t) s /\
  N.of_nat (length (records t)) = nInUse t.
Proof.
  intros Hinv. split.
  - unfold traverseConst. cbv zeta.
    rewrite (fold_left_chains
               (fun s l => fold_left (fun s r => pCB r s) l s)).
    rewrite fold_left_concat, (table_chains t Hinv). reflexivity.
  - destruct Hinv as (_ & _ & Hcnt). unfold counted in Hcnt.
    rewrite sum_length_concat in Hcnt. symmetry. exact Hcnt.
Qed.

(** *** resTableIter *)

Lemma tableSize_bound t : tableSize t < 2 ^ 32.
Proof. unfold tableSize, to_unsigned. apply N.mod_lt. discriminate. Qed.

Lemma chains_from_S t (start n : nat) :
  chains_from t start (S n)
  = bucket t (N.of_nat start) :: chains_from t (S start) n.
Proof. reflexivity. Qed.

(** From a position in chain [ix - 1] with [n] chains left, the iterator
    returns the rest of its chain and then the records of the chains
    left, and then null. *)
Lemma drain_spec t (n : nat) :
  (forall (ix : N) (c : nat),
     (N.to_nat ix + n = N.to_nat (tableSize t))%nat ->
     (length (concat (chains_from t (N.to_nat ix) n)) <= c)%nat ->
     match resTableIter_scan n t ix with
     | (None, _) => ([], true)
     | (Some p, it') => let (l, done) := drain c t it' in (p :: l, done)
     end = (concat (chains_from t (N.to_nat ix) n), true)) /\
  (forall (ix : N) (l : list T) (c : nat),
     (N.to_nat ix + n = N.to_nat (tableSize t))%nat ->
     (length l + length (concat (chains_from t (N.to_nat ix) n)) < c)%nat ->
     drain c t (mk_resTableIter l ix)
     = (l ++ concat (chains_from t (N.to_nat ix) n), true)).
Proof.
  pose proof (tableSize_bound t) as Hb.
  induction n as [|n [IHQ IHP]].
  - assert (HQ : forall (ix : N) (c : nat),
       (N.to_nat ix + 0 = N.to_nat (tableSize t))%nat ->
       match resTableIter_scan 0 t ix with
       | (None, _) => ([], true)
       | (Some p, it') => let (l, done) := drain c t it' in (p :: l, done)
       end = (@nil T, true)).
    { intros ix c Hix. cbn [resTableIter_scan].
      destruct (tableSize t <=? ix); reflexivity. }
    split; [intros ix c Hix _; apply HQ, Hix |].
    intros ix l. induction l as [|p rest IHl]; intros c Hix Hc;
      (destruct c as [|c]; [cbn [length] in Hc; lia |]); cbn [drain next iter index].
    + replace (N.to_nat (tableSize t - ix)) with 0%nat by lia.
      apply HQ, Hix.
    + rewrite IHl; [reflexivity | assumption | cbn [length] in Hc |- *; lia].
  - assert (HQ : forall (ix : N) (c : nat),
       (N.to_nat ix + S n = N.to_nat (tableSize t))%nat ->
       (length (concat (chains_from t (N.to_nat ix) (S n))) <= c)%nat ->
       match resTableIter_scan (S n) t ix with
       | (None, _) => ([], true)
       | (Some p, it') => let (l, done) := drain c t it' in (p :: l, done)
       end = (concat (chains_from t (N.to_nat ix) (S n)), true)).
    { intros ix c Hix Hc. cbn [resTableIter_scan].
      destruct (N.leb_spec (tableSize t) ix) as [Hle | _]; [lia |].
      rewrite to_unsigned_small by lia.
      rewrite chains_from_S, N2Nat.id in *. cbn [concat] in *.
      replace (S (N.to_nat ix)) with (N.to_nat (ix + 1)) in * by lia.
      destruct (bucket t ix) as [|p rest].
      - apply IHQ; [lia | exact Hc].
      - rewrite IHP; [reflexivity | lia |].
        rewrite length_app in Hc. cbn [length] in Hc. lia. }
    split; [exact HQ |].
    intros ix l. induction l as [|p rest IHl]; intros c Hix Hc;
      (destruct c as [|c]; [cbn [length] in Hc; lia |]); cbn [drain next iter index].
    + replace (N.to_nat (tableSize t - ix)) with (S n) by lia.
      apply HQ; [exact Hix | cbn [length] in Hc; lia].
    + rewrite IHl; [reflexivity | assumption | cbn [length] in Hc |- *; lia].
Qed.

(** X15.  An iterator made for a table returns every record of the table
    exactly once, chain after chain, and then null. *)
Theorem iterator_yields_records t (calls : nat) :
  table_inv idOf t ->
  (length (records t) < calls)%nat ->
  drain calls t (resTableIter_init t) = (records t, true).
Proof.
  intros Hinv Hcalls. pose proof Hinv as ([k Hok] & _ & _).
  pose proof (tableSize_masks k t Hok) as Hsize.
  pose proof (pow2_pos k) as Hpos.
  pose proof (table_chains t Hinv) as Hrec.
  destruct (N.to_nat (tableSize t)) as [|n] eqn:En; [lia |].
  rewrite chains_from_S in Hrec. cbn [concat] in Hrec.
  change (N.of_nat 0) with 0 in Hrec.
  destruct (drain_spec t n) as [_ HP].
  unfold resTableIter_init.
  rewrite (HP 1 (bucket t 0) calls).
  - change (N.to_nat 1) with 1%nat. rewrite Hrec. reflexivity.
  - lia.
  - change (N.to_nat 1) with 1%nat. rewrite <- length_app, Hrec. exact Hcalls.
Qed.

End ResTableChains.

(** ** Growth of the table *)

Section ResTableGrowth.

Context {ID : Type} `{Identifier ID} {T : Type} (idOf : T -> ID).
Implicit Types (t : resTable T).

(** When [add] calls for a split step there is room for doubling. *)
Lemma split_room t k :
  masks_ok k t -> nInUse t < 2 ^ 31 -> tableSize t < nInUse t ->
  hashIxMask t < nextSplitIndex t -> k + 2 <= 31.
Proof.
  intros Hok Hsmall Hfull Hlt.
  rewrite (tableSize_masks k t Hok) in Hfull.
  destruct Hok as (Hk1 & Hm & Hs & Hn & Hlen).
  pose proof (pow2_pos k). pose proof (pow2_succ k).
  rewrite Hm, ones_pow2 in Hlt.
  assert (Hlt31 : 2 ^ (k + 1) < 2 ^ 31) by lia.
  apply N.pow_lt_mono_r_iff in Hlt31; lia.
Qed.

Lemma splitBucket_size (alloc_ok : bool) t k :
  masks_ok k t -> consistent idOf t ->
  (hashIxMask t < nextSplitIndex t -> k + 2 <= 31) ->
  tableSize (splitBucket idOf alloc_ok t) =
    if alloc_ok || negb (hashIxMask t <? nextSplitIndex t)
    then tableSize t + 1 else tableSize t.
Proof.
  intros Hok Hc Hroom.
  pose proof Hok as (Hk1 & Hm & Hs & Hn & Hlen).
  pose proof (pow2_pos k) as Hpos. pose proof (pow2_succ k) as Hsucc.
  rewrite (tableSize_masks k t Hok).
  unfold splitBucket.
  destruct (N.ltb_spec (hashIxMask t) (nextSplitIndex t)) as [Hfull | Hpart].
  - assert (Hnext : nextSplitIndex t = 2 ^ k)
      by (rewrite Hm, ones_pow2 in Hfull; lia).
    destruct alloc_ok; cbn [orb negb].
    + destruct (doubleTable_spec idOf t k Hok Hc Hnext (Hroom Hfull))
        as (t' & -> & Hok' & Hc' & Hn' & _).
      assert (Hlt : nextSplitIndex t' < 2 ^ (k + 1))
        by (rewrite Hn'; apply pow2_pos).
      destruct (splitOne_spec idOf t' (k + 1) Hok' Hlt Hc')
        as (Hok2 & _ & Hn2 & _).
      rewrite (tableSize_masks (k + 1) _ Hok2), Hn2, Hn'. lia.
    + unfold doubleTable.
      destruct (N.ltb_spec (hashIxMask t) (nextSplitIndex t)); [| lia].
      apply (tableSize_masks k t Hok).
  - assert (Hsame : doubleTable alloc_ok t = Some t).
    { unfold doubleTable.
      destruct (N.ltb_spec (hashIxMask t) (nextSplitIndex t)); [lia |].
      reflexivity. }
    rewrite Hsame, orb_true_r.
    assert (Hlt : nextSplitIndex t < 2 ^ k)
      by (rewrite Hm, ones_pow2 in Hpart; lia).
    destruct (splitOne_spec idOf t k Hok Hlt Hc) as (Hok2 & _ & Hn2 & _).
    rewrite (tableSize_masks k _ Hok2), Hn2. lia.
Qed.

Lemma add_size (alloc_ok : bool) t res :
  table_inv idOf t -> nInUse t < 2 ^ 31 ->
  tableSize (snd (add idOf alloc_ok t res)) =
    if (tableSize t <? nInUse t)
       && (alloc_ok || negb (hashIxMask t <? nextSplitIndex t))
    then tableSize t + 1 else tableSize t.
Proof.
  intros ([k Hok] & Hc & _) Hsmall.
  assert (Hadd : tableSize (snd (add idOf alloc_ok t res))
                 = tableSize (add_split idOf alloc_ok t)).
  { unfold add. destruct (find idOf _ (idOf res)); reflexivity. }
  rewrite Hadd. unfold add_split.
  destruct (N.ltb_spec (tableSize t) (nInUse t)) as [Hfull | _];
    [| reflexivity].
  cbn [andb]. apply (splitBucket_size alloc_ok t k Hok Hc).
  apply split_room; assumption.
Qed.

Lemma remove_size t (q : ID) :
  tableSize (snd (remove idOf t q)) = tableSize t.
Proof.
  unfold remove, findDelete.
  destruct (findDelete_chain idOf _ q) as [[r|] l']; reflexivity.
Qed.

(** X16.  The bucket count never shrinks and grows by one bucket at a
    time: [remove] leaves [tableSize ()] as it is, and [add] raises it by
    exactly one when [nInUse > tableSize ()], unless the array has to be
    doubled and cannot be allocated. *)
Theorem tableSize_growth (alloc_ok : bool) t res (q : ID) :
  table_inv idOf t -> nInUse t < 2 ^ 31 ->
  tableSize (snd (remove idOf t q)) = tableSize t /\
  tableSize (snd (add idOf alloc_ok t res)) =
    (if (tableSize t <? nInUse t)
        && (alloc_ok || negb (hashIxMask t <? nextSplitIndex t))
     then tableSize t + 1 else tableSize t).
Proof.
  intros Hinv Hsmall. split.
  - apply remove_size.
  - apply add_size; assumption.
Qed.

Lemma run_ops_load (ops : list (tableOp (T := T))) :
  forall t,
    allocs_succeed ops ->
    table_inv idOf t -> nInUse t + N.of_nat (length ops) < 2 ^ 31 ->
    nInUse t <= tableSize t + 1 ->
    nInUse (run_ops idOf ops t) <= tableSize (run_ops idOf ops t) + 1.
Proof.
  induction ops as [|o ops IH]; intros t Hall Hinv Hsmall Hload;
    cbn [run_ops fold_left]; [assumption |].
  cbn [length] in Hsmall. inversion Hall as [|? ? Ho Hops]; subst.
  destruct (run_op_inv idOf t o Hinv ltac:(lia)) as [Hinv1 Hn1].
  apply IH; [assumption | assumption | lia |].
  destruct o as [alloc_ok res | idIn]; cbn [run_op] in *.
  - subst alloc_ok. rewrite add_size by (assumption || lia).
    cbn [orb]. rewrite andb_true_r.
    destruct (N.ltb_spec (tableSize t) (nInUse t)); lia.
  - rewrite remove_size.
    destruct (remove_spec idOf t idIn Hinv
      ltac:(change (2 ^ 32) with (2 * 2 ^ 31); lia)) as [_ Hres].
    destruct (fst (remove idOf t idIn)).
    + destruct Hres as [_ Hu]. lia.
    + rewrite Hres. assumption.
Qed.

(** X17.  As long as every split allocation succeeds, a table built from
    a fresh one by [add] and [remove] calls holds at most one record more
    than it has buckets. *)
Theorem load_bound (ops : list (tableOp (T := T))) :
  minIndexBitWidth ID < 30 ->
  N.of_nat (length ops) < 2 ^ 31 ->
  allocs_succeed ops ->
  let t := run_ops idOf ops (resTable_init ID T) in
  nInUse t <= tableSize t + 1.
Proof.
  intros Hmin Hlen Hall. cbv zeta.
  assert (H0 : nInUse (resTable_init ID T) = 0)
    by (rewrite (resTable_init_fields Hmin); reflexivity).
  apply run_ops_load; try assumption.
  - apply resTable_init_inv. assumption.
  - rewrite H0. lia.
Qed.

(** *** A split step touches one chain and its shadow *)

Lemma set_bucket_other t (i j : N) (l : list T) :
  i <> j -> bucket (set_bucket t i l) j = bucket t j.
Proof.
  intros Hne. unfold bucket, set_bucket. cbn [pTable].
  rewrite list_lookup_insert_ne by lia. reflexivity.
Qed.

Lemma rehash_other (tmp : list T) :
  forall t (j : N),
    (forall x, x ∈ tmp -> hash t (idOf x) <> j) ->
    bucket (rehash idOf tmp t) j = bucket t j.
Proof.
  induction tmp as [|x tmp IH]; intros t j Hall; cbn [rehash];
    [reflexivity |].
  rewrite IH.
  - apply set_bucket_other, Hall. left.
  - intros y Hy. rewrite (hash_fields t) by reflexivity.
    apply Hall. right. assumption.
Qed.

Lemma splitOne_other t k (j : N) :
  masks_ok k t -> nextSplitIndex t < 2 ^ k -> consistent idOf t ->
  j <> nextSplitIndex t -> j <> nextSplitIndex t + 2 ^ k ->
  bucket (splitOne idOf t) j = bucket t j.
Proof.
  intros Hok Hnext Hc Hj Hj'. unfold splitOne.
  set (nx := nextSplitIndex t) in *.
  set (t0 := mk_resTable (<[N.to_nat nx := []]> (pTable t))
               (to_unsigned (nx + 1)) (hashIxMask t) (hashIxSplitMask t)
               (nInUse t)).
  assert (Hk : 2 ^ k < 2 ^ 32) by (apply pow2_le_32; destruct Hok; lia).
  assert (Hnx : nextSplitIndex t0 = nx + 1)
    by (cbn; apply to_unsigned_small; lia).
  assert (Hok0 : masks_ok k t0).
  { destruct Hok as (Hk1 & Hm & Hs & Hn & Hlen).
    unfold masks_ok. rewrite Hnx. cbn. rewrite length_insert.
    split_and!; try assumption. lia. }
  rewrite rehash_other.
  - unfold bucket. cbn [pTable t0].
    rewrite list_lookup_insert_ne by lia. reflexivity.
  - intros x Hx. pose proof (consistent_bucket idOf t nx x Hc Hx) as Hh.
    rewrite (hash_mod k) in Hh by assumption. fold nx in Hh.
    rewrite (hash_mod k) by assumption. rewrite Hnx.
    pose proof (N.mod_lt (id_hash (idOf x)) (2 ^ k)) as Hlt.
    pose proof (pow2_pos k).
    destruct (mod_pow2_succ (id_hash (idOf x)) k) as [E | E];
      destruct (N.leb_spec nx (id_hash (idOf x) mod 2 ^ k)),
        (N.leb_spec (nx + 1) (id_hash (idOf x) mod 2 ^ k)); lia.
Qed.

Lemma doubleTable_bucket t t' (j : N) :
  doubleTable true t = Some t' ->
  (N.to_nat (hashIxMask t + 1 + nextSplitIndex t) = length (pTable t)) ->
  hashIxMask t + 1 + nextSplitIndex t < 2 ^ 32 ->
  bucket t' j = bucket t j.
Proof.
  unfold doubleTable. intros Hd Hlen Hsmall.
  destruct (hashIxMask t <? nextSplitIndex t); [| congruence].
  injection Hd as <-. unfold bucket. cbn [pTable].
  rewrite to_unsigned_small by assumption.
  rewrite take_ge by lia.
  destruct (decide (N.to_nat j < length (pTable t))%nat) as [Hin | Hout].
  - rewrite lookup_app_l by assumption. reflexivity.
  - rewrite lookup_app_r by lia.
    rewrite (proj2 (lookup_ge_None (pTable t) (N.to_nat j))) by lia.
    destruct (replicate _ _ !! _) as [l|] eqn:E; [| reflexivity].
    apply lookup_replicate in E as [-> _]. reflexivity.
Qed.

(** X18.  A split step rehashes one chain only: every chain other than
    the one at the split index and its shadow, [hashIxMask + 1] buckets
    further, is left as it was, records and order. *)
Theorem splitBucket_local (alloc_ok : bool) t (j : N) :
  table_inv idOf t -> nInUse t < 2 ^ 31 -> tableSize t < nInUse t ->
  let t' := splitBucket idOf alloc_ok t in
  let split := nextSplitIndex t' - 1 in
  j <> split -> j <> split + (hashIxMask t' + 1) ->
  bucket t' j = bucket t j.
Proof.
  intros ([k Hok] & Hc & _) Hsmall Hfull. cbv zeta.
  pose proof (split_room t k Hok Hsmall Hfull) as Hroom.
  pose proof Hok as (Hk1 & Hm & Hs & Hn & Hlen).
  pose proof (pow2_pos k) as Hpos. pose proof (pow2_succ k) as Hsucc.
  unfold splitBucket.
  destruct (N.ltb_spec (hashIxMask t) (nextSplitIndex t)) as [Hlt | Hpart].
  - assert (Hnext : nextSplitIndex t = 2 ^ k)
      by (rewrite Hm, ones_pow2 in Hlt; lia).
    destruct alloc_ok.
    + destruct (doubleTable_spec idOf t k Hok Hc Hnext (Hroom Hlt))
        as (t1 & Hd & Hok1 & Hc1 & Hn1 & _).
      rewrite Hd.
      assert (Hlt1 : nextSplitIndex t1 < 2 ^ (k + 1))
        by (rewrite Hn1; apply pow2_pos).
      destruct (splitOne_spec idOf t1 (k + 1) Hok1 Hlt1 Hc1)
        as (_ & _ & Hn2 & Hm2 & _).
      rewrite Hn2, Hm2, Hn1.
      pose proof Hok1 as (_ & Hm1 & _). rewrite Hm1, ones_pow2.
      pose proof (pow2_pos (k + 1)).
      intros Hj Hj'.
      rewrite (splitOne_other t1 (k + 1) j) by (assumption || lia).
      apply (doubleTable_bucket t t1 j Hd).
      * rewrite Hm, ones_pow2, Hnext. lia.
      * pose proof (pow2_le_32 (k + 1) Hk1).
        rewrite Hm, ones_pow2, Hnext. lia.
    + unfold doubleTable.
      destruct (N.ltb_spec (hashIxMask t) (nextSplitIndex t)); [| lia].
      reflexivity.
  - assert (Hsame : doubleTable alloc_ok t = Some t).
    { unfold doubleTable.
      destruct (N.ltb_spec (hashIxMask t) (nextSplitIndex t)); [lia |].
      reflexivity. }
    rewrite Hsame.
    assert (Hlt : nextSplitIndex t < 2 ^ k)
      by (rewrite Hm, ones_pow2 in Hpart; lia).
    destruct (splitOne_spec idOf t k Hok Hlt Hc)
      as (_ & _ & Hn2 & Hm2 & _).
    rewrite Hn2, Hm2, Hm, ones_pow2.
    intros Hj Hj'. apply (splitOne_other t k j); try assumption; lia.
Qed.

End ResTableGrowth.

(** ** A chronological table before the counter wraps *)

Section ChronSequence.

Context {A : Type}.
Implicit Types (this : chronIntIdResTable A).

Lemma fmap_seq_shift (a : N) (n : nat) :
  forall start : nat,
    (fun i => a + N.of_nat i) <$> seq (S start) n
    = (fun i => a + 1 + N.of_nat i) <$> seq start n.
Proof.
  induction n as [|n IH]; intros start; [reflexivity |].
  cbn [seq fmap list_fmap]. f_equal; [lia | apply IH].
Qed.

Lemma chron_run_fresh (ops : list (chronOp A)) :
  forall this,
    chron_inv this ->
    (forall r, r ∈ records (chron_table this) ->
               id (chron_id r) < allocId this) ->
    nInUse (chron_table this) < allocId this ->
    allocId this + N.of_nat (length ops) < 2 ^ 31 ->
    exists this',
      chron_run 1 ops this
        = Some (this',
                (fun i => allocId this + N.of_nat i)
                  <$> seq 0 (count_adds ops)) /\
      allocId this' = allocId this + N.of_nat (count_adds ops).
Proof.
  induction ops as [|[allocs data | idIn] ops IH];
    intros this Hci Hids Hn Hsmall; cbn [chron_run count_adds length] in *.
  - exists this. split; [reflexivity | cbn; lia].
  - assert (Hfree : id_live (chron_table this)
                      (to_unsigned (allocId this + N.of_nat 0)) = false).
    { rewrite N.add_0_r, to_unsigned_small
        by (change (2 ^ 32) with (2 * 2 ^ 31); lia).
      destruct (id_live (chron_table this) (allocId this)) eqn:E;
        [| reflexivity].
      apply id_live_true in E as (r & Hr & E).
      specialize (Hids r Hr). lia. }
    destruct (chron_add_loop 0 1 allocs 0 this (chronIntIdRes_new data)
                Hci ltac:(lia) ltac:(lia) ltac:(intros; lia) Hfree)
      as (t' & Hrun & Hinv' & Hu & Hp & _).
    change (N.of_nat 0) with 0 in Hrun, Hp.
    rewrite !N.add_0_r in Hrun, Hp.
    rewrite !(to_unsigned_small (allocId this)) in Hrun, Hp
      by (change (2 ^ 32) with (2 * 2 ^ 31); lia).
    rewrite (to_unsigned_small (allocId this + 1)) in Hrun
      by (change (2 ^ 32) with (2 * 2 ^ 31); lia).
    rewrite Hrun.
    set (this1 := mk_chronIntIdResTable t' (allocId this + 1)).
    destruct (IH this1) as (this' & Hrun' & Hid').
    + split; [exact Hinv' |]. cbn [allocId this1].
      change (2 ^ UINT_WIDTH) with (2 * 2 ^ 31). lia.
    + cbn [chron_table allocId this1]. intros r Hr. rewrite Hp in Hr.
      apply elem_of_cons in Hr as [-> | Hr]; [cbn; lia |].
      specialize (Hids r Hr). lia.
    + cbn [chron_table allocId this1]. lia.
    + cbn [allocId this1]. lia.
    + rewrite Hrun'. exists this'. cbn [allocId this1] in *.
      split; [| lia].
      cbn [seq fmap list_fmap setId chron_id id].
      rewrite fmap_seq_shift. change (N.of_nat 0) with 0.
      rewrite N.add_0_r. reflexivity.
  - destruct Hci as [Hinv Hid].
    destruct (remove_spec chron_id (chron_table this) idIn Hinv
      ltac:(change (2 ^ 32) with (2 * 2 ^ 31); lia)) as [Hinv' Hres].
    set (this1 := mk_chronIntIdResTable
                    (snd (remove chron_id (chron_table this) idIn))
                    (allocId this)).
    destruct (IH this1) as (this' & Hrun' & Hid').
    + split; assumption.
    + cbn [chron_table allocId this1]. intros r Hr. apply Hids.
      destruct (fst (remove chron_id (chron_table this) idIn)).
      * destruct Hres as [Hp _]. rewrite Hp. right. assumption.
      * rewrite Hres in Hr. assumption.
    + cbn [chron_table allocId this1].
      destruct (fst (remove chron_id (chron_table this) idIn)).
      * destruct Hres as [_ Hu]. lia.
      * rewrite Hres. assumption.
    + cbn [allocId this1]. lia.
    + exists this'. split; assumption.
Qed.

(** X19.  In a new chronological table, before the counter can wrap, the
    insertions get the identifiers 1, 2, 3, ... in order, whatever is
    removed in between, and each insertion needs a single round of the
    retry loop. *)
Theorem chron_fresh_ids (ops : list (chronOp A)) :
  N.of_nat (length ops) + 1 < 2 ^ 31 ->
  exists this',
    chron_run 1 ops (chronIntIdResTable_init A)
      = Some (this', (fun i => 1 + N.of_nat i) <$> seq 0 (count_adds ops)) /\
    allocId this' = 1 + N.of_nat (count_adds ops).
Proof.
  intros Hlen.
  apply (chron_run_fresh ops (chronIntIdResTable_init A)).
  - split.
    + apply resTable_init_inv. vm_compute. reflexivity.
    + vm_compute. reflexivity.
  - intros r Hr. exfalso. cbn [chron_table chronIntIdResTable_init] in Hr.
    rewrite (@resTable_init_fields chronIntId _ (chronIntIdRes A)) in Hr
      by (vm_compute; reflexivity).
    unfold records in Hr. cbn [pTable] in Hr.
    rewrite concat_all_nil in Hr; [inversion Hr |].
    apply Forall_forall. intros l Hl. apply elem_of_replicate in Hl. tauto.
  - cbn [chron_table chronIntIdResTable_init allocId].
    rewrite (@resTable_init_fields chronIntId _ (chronIntIdRes A))
      by (vm_compute; reflexivity).
    cbn. lia.
  - cbn [allocId chronIntIdResTable_init]. lia.
Qed.

End ChronSequence.

Lemma chron_fresh_ids_witness :
  exists this',
    chron_run 1
      [cop_add (fun _ => true) tt; cop_remove (mk_intId 1);
       cop_add (fun _ => false) tt; cop_add (fun _ => true) tt]
      (chronIntIdResTable_init unit)
    = Some (this', (fun i => 1 + N.of_nat i) <$> seq 0 3) /\
    allocId this' = 1 + N.of_nat 3.
Proof.
  apply (chron_fresh_ids
           [cop_add (fun _ => true) tt; cop_remove (mk_intId 1);
            cop_add (fun _ => false) tt; cop_add (fun _ => true) tt]).
  vm_compute. reflexivity.
Defined.

(** ** More examples *)

Lemma stringId_eqb_laws_witness :
  stringId_eqb (stringId_of "a") (stringId_of "a") = true.
Proof.
  apply (proj1 (proj2 (stringId_eqb_laws (stringId_of "a") (stringId_of "a")
                         (stringId_of "a")))); reflexivity.
Defined.

Lemma verify_passes_witness :
  verify intRes_id
    (run_ops intRes_id
       [op_add true (r432 1); op_add false (r432 17);
        op_remove (mk_intId 1)]
       (resTable_init (intId 4 32) (intRes 4 32 unit))) = true.
Proof.
  apply (verify_passes intRes_id
           [op_add true (r432 1); op_add false (r432 17);
            op_remove (mk_intId 1)]).
  - vm_compute. reflexivity.
  - vm_compute. reflexivity.
Defined.

Lemma verify_sound_witness :
  hash (table432 17) (intRes_id (r432 3)) = 3.
Proof.
  apply (verify_sound intRes_id (table432 17) 3 (r432 3)).
  - vm_compute. reflexivity.
  - vm_compute. reflexivity.
  - apply list_elem_of_In. vm_compute. left. reflexivity.
Defined.

Lemma traverseConst_records_witness :
  let sum := fun (r : intRes 4 32 unit) (s : N) => s + id (intRes_id r) in
  traverseConst sum (table432 17) 0
    = fold_left (fun s r => sum r s) (records (table432 17)) 0 /\
  N.of_nat (length (records (table432 17))) = nInUse (table432 17).
Proof.
  apply (traverseConst_records intRes_id
           (fun (r : intRes 4 32 unit) (s : N) => s + id (intRes_id r))
           (table432 17) 0).
  apply (table432_inv 17). vm_compute. reflexivity.
Defined.

Lemma iterator_yields_records_witness :
  drain 20 (table432 17) (resTableIter_init (table432 17))
    = (records (table432 17), true).
Proof.
  apply (iterator_yields_records intRes_id (table432 17) 20).
  - apply (table432_inv 17). vm_compute. reflexivity.
  - vm_compute. lia.
Defined.

Lemma tableSize_growth_witness :
  let t := table432 17 in
  tableSize (snd (remove intRes_id t (mk_intId 3))) = tableSize t /\
  tableSize (snd (add intRes_id true t (r432 100))) =
    (if (tableSize t <? nInUse t)
        && (true || negb (hashIxMask t <? nextSplitIndex t))
     then tableSize t + 1 else tableSize t).
Proof.
  apply (tableSize_growth intRes_id true (table432 17) (r432 100)
           (mk_intId 3)).
  - apply (table432_inv 17). vm_compute. reflexivity.
  - vm_compute. reflexivity.
Defined.

Lemma load_bound_witness :
  let t := run_ops intRes_id
             [op_add true (r432 1); op_add true (r432 2);
              op_remove (mk_intId 1)]
             (resTable_init (intId 4 32) (intRes 4 32 unit)) in
  nInUse t <= tableSize t + 1.
Proof.
  apply (load_bound intRes_id
           [op_add true (r432 1); op_add true (r432 2);
            op_remove (mk_intId 1)]).
  - vm_compute. reflexivity.
  - vm_compute. reflexivity.
  - repeat constructor.
Defined.

Lemma splitBucket_local_witness :
  bucket (splitBucket intRes_id true (table432 17)) 5
    = bucket (table432 17) 5.
Proof.
  apply (splitBucket_local intRes_id true (table432 17) 5).
  - apply (table432_inv 17). vm_compute. reflexivity.
  - vm_compute. reflexivity.
  - vm_compute. reflexivity.
  - vm_compute. discriminate.
  - vm_compute. discriminate.
Defined.

(** ** The string hash tells strings apart that differ in one character *)

Lemma permuted_byte (i : N) : permuted i < 256.
Proof.
  unfold permuted.
  assert (Hall : forallb (fun x => x <? 256) fastHashPermutedIndexSpace
                 = true) by (vm_compute; reflexivity).
  rewrite forallb_forall in Hall.
  destruct (nth_in_or_default (N.to_nat i) fastHashPermutedIndexSpace 0)
    as [Hin | ->]; [| reflexivity].
  apply N.ltb_lt, Hall, Hin.
Qed.

Lemma permuted_NoDup : NoDup fastHashPermutedIndexSpace.
Proof. apply (bool_decide_unpack _). vm_compute. reflexivity. Qed.

Lemma permuted_inj (i j : N) :
  i < 256 -> j < 256 -> permuted i = permuted j -> i = j.
Proof.
  intros Hi Hj Heq. unfold permuted in Heq.
  apply N2Nat.inj.
  apply (proj1 (List.NoDup_nth fastHashPermutedIndexSpace 0)
           (proj1 (NoDup_ListNoDup _) permuted_NoDup)); try assumption.
  - change (length fastHashPermutedIndexSpace) with 256%nat. lia.
  - change (length fastHashPermutedIndexSpace) with 256%nat. lia.
Qed.

Lemma lxor_byte (a b : N) : a < 256 -> b < 256 -> N.lxor a b < 256.
Proof.
  change 256 with (2 ^ 8). intros Ha Hb.
  assert (Heq : N.lxor a b mod 2 ^ 8 = N.lxor a b).
  { apply N.bits_inj. intros m.
    destruct (N.lt_ge_cases m 8) as [Hlt | Hge].
    - apply N.mod_pow2_bits_low. assumption.
    - rewrite N.mod_pow2_bits_high by assumption.
      rewrite N.lxor_spec.
      rewrite <- (N.mod_small a (2 ^ 8)), <- (N.mod_small b (2 ^ 8))
        by assumption.
      rewrite !N.mod_pow2_bits_high by assumption. reflexivity. }
  rewrite <- Heq. apply N.mod_lt. discriminate.
Qed.

Lemma lxor_cancel_l (h a b : N) : N.lxor h a = N.lxor h b -> a = b.
Proof.
  intros Heq. apply (f_equal (N.lxor h)) in Heq.
  rewrite <- !N.lxor_assoc, N.lxor_nilpotent, !N.lxor_0_l in Heq.
  exact Heq.
Qed.

Lemma lxor_cancel_r (c a b : N) : N.lxor a c = N.lxor b c -> a = b.
Proof.
  rewrite (N.lxor_comm a), (N.lxor_comm b). apply lxor_cancel_l.
Qed.

Lemma stringHash_loop_cons (b : byte) (p : list byte) (lane : nat)
    (h : lanes) :
  stringHash_loop (b :: p) lane h =
    if Byte.to_N b =? 0 then h
    else stringHash_loop p (next_lane lane) (lane_step lane h (Byte.to_N b)).
Proof.
  cbn [stringHash_loop]. destruct (Byte.to_N b =? 0); [reflexivity |].
  destruct lane as [|[|[|lane]]]; reflexivity.
Qed.

Lemma lane_step_bytes (lane : nat) (h : lanes) (c : N) :
  lanes_bytes h -> lanes_bytes (lane_step lane h c).
Proof.
  intros (H0 & H1 & H2 & H3).
  destruct lane as [|[|[|lane]]]; cbn; unfold lanes_bytes; cbn;
    split_and!; try assumption; apply permuted_byte.
Qed.

(** For a fixed character a step is injective in the accumulators. *)
Lemma lane_step_inj (lane : nat) (h h' : lanes) (c : N) :
  lanes_bytes h -> lanes_bytes h' -> c < 256 ->
  lane_step lane h c = lane_step lane h' c -> h = h'.
Proof.
  intros (H0 & H1 & H2 & H3) (H0' & H1' & H2' & H3') Hc.
  destruct h as [a0 a1 a2 a3], h' as [b0 b1 b2 b3]. cbn in *.
  destruct lane as [|[|[|lane]]]; cbn; intros Heq;
    injection Heq as E0 E1 E2 E3; subst; f_equal;
    apply (lxor_cancel_r c), permuted_inj;
    solve [assumption | apply lxor_byte; assumption].
Qed.

(** For fixed accumulators a step is injective in the character. *)
Lemma lane_step_char_inj (lane : nat) (h : lanes) (c c' : N) :
  lanes_bytes h -> c < 256 -> c' < 256 ->
  lane_step lane h c = lane_step lane h c' -> c = c'.
Proof.
  intros (H0 & H1 & H2 & H3) Hc Hc'.
  destruct lane as [|[|[|lane]]]; cbn; intros [= E];
    apply permuted_inj in E; try (apply lxor_byte; assumption);
    apply lxor_cancel_l in E; exact E.
Qed.

Lemma to_N_byte (b : byte) : Byte.to_N b < 256.
Proof. pose proof (Byte.to_N_bounded b). lia. Qed.

(** Different accumulators stay different through the rest of a
    string. *)
Lemma stringHash_loop_inj (p : list byte) :
  forall (lane : nat) (h h' : lanes),
    lanes_bytes h -> lanes_bytes h' -> h <> h' ->
    stringHash_loop p lane h <> stringHash_loop p lane h' /\
    lanes_bytes (stringHash_loop p lane h) /\
    lanes_bytes (stringHash_loop p lane h').
Proof.
  induction p as [|b p IH]; intros lane h h' Hb Hb' Hne.
  - cbn. auto.
  - rewrite !stringHash_loop_cons.
    destruct (Byte.to_N b =? 0); [auto |].
    apply IH; try (apply lane_step_bytes; assumption).
    intros Heq. apply Hne.
    apply (lane_step_inj lane h h' (Byte.to_N b)); try assumption.
    apply to_N_byte.
Qed.

(** A prefix without NUL is consumed whole. *)
Lemma stringHash_loop_prefix (pre : list byte) :
  forall (lane : nat) (h : lanes),
    Forall (fun b => Byte.to_N b <> 0) pre -> lanes_bytes h ->
    exists (lane' : nat) (h' : lanes),
      lanes_bytes h' /\
      forall rest,
        stringHash_loop (pre ++ rest) lane h = stringHash_loop rest lane' h'.
Proof.
  induction pre as [|b pre IH]; intros lane h Hnul Hb.
  - exists lane, h. split; [assumption | reflexivity].
  - inversion Hnul as [|? ? Hb0 Hpre]; subst.
    destruct (IH (next_lane lane) (lane_step lane h (Byte.to_N b)) Hpre
                (lane_step_bytes lane h _ Hb)) as (lane' & h' & Hb' & Heq).
    exists lane', h'. split; [assumption |].
    intros rest. rewrite <- app_comm_cons, stringHash_loop_cons.
    destruct (N.eqb_spec (Byte.to_N b) 0); [contradiction | apply Heq].
Qed.

Lemma lor_add_low (a b k : N) :
  a < 2 ^ k -> N.lor (N.shiftl b k) a = N.shiftl b k + a.
Proof.
  intros Ha.
  assert (Hdisj : N.land (N.shiftl b k) a = 0).
  { apply N.bits_inj. intros m. rewrite N.land_spec, N.bits_0.
    destruct (N.lt_ge_cases m k) as [Hlt | Hge].
    - rewrite N.shiftl_spec_low by assumption. reflexivity.
    - rewrite <- (N.mod_small a (2 ^ k)) by assumption.
      rewrite N.mod_pow2_bits_high by assumption. apply andb_false_r. }
  rewrite (N.add_nocarry_lxor _ _ Hdisj). symmetry.
  apply N.lxor_lor, Hdisj.
Qed.

(** No bit is lost when the accumulators are packed. *)
Lemma composite_sum (h : lanes) :
  lanes_bytes h ->
  composite h = h3 h * 2 ^ 24 + h2 h * 2 ^ 16 + h1 h * 2 ^ 8 + h0 h.
Proof.
  intros (H0 & H1 & H2 & H3). unfold composite.
  rewrite !to_unsigned_small by (rewrite N.shiftl_mul_pow2; lia).
  change 24 with (8 + 8 + 8) at 1. change 16 with (8 + 8) at 1.
  rewrite <- !N.shiftl_shiftl, <- !N.shiftl_lor.
  rewrite (lor_add_low (h2 h) (h3 h) 8) by exact H2.
  rewrite (lor_add_low (h1 h) _ 8) by exact H1.
  rewrite (lor_add_low (h0 h) _ 8) by exact H0.
  rewrite !N.shiftl_mul_pow2. lia.
Qed.

Lemma composite_inj (h h' : lanes) :
  lanes_bytes h -> lanes_bytes h' -> composite h = composite h' -> h = h'.
Proof.
  intros Hb Hb'. rewrite !composite_sum by assumption.
  destruct Hb as (H0 & H1 & H2 & H3), Hb' as (H0' & H1' & H2' & H3').
  destruct h as [a0 a1 a2 a3], h' as [b0 b1 b2 b3]. cbn in *.
  intros Heq. f_equal; lia.
Qed.

(** X20.  Two strings that differ in exactly one character, before any
    NUL, have different hashes: every step of the Pearson loop is a
    bijection on bytes, the packing of the four accumulators loses no bit
    and the final fold is injective. *)
Theorem stringId_hash_one_char (pre post : list byte) (c c' : byte)
    (a a' : allocationType) :
  Forall (fun b => Byte.to_N b <> 0) pre ->
  Byte.to_N c <> 0 -> Byte.to_N c' <> 0 -> c <> c' ->
  stringId_hash (mk_stringId (Some (pre ++ c :: post)) a) <>
  stringId_hash (mk_stringId (Some (pre ++ c' :: post)) a').
Proof.
  intros Hpre Hc Hc' Hne.
  rewrite !stringId_hash_some. intros Heq.
  apply fold_step_inj in Heq; [| lia].
  unfold stringComposite in Heq.
  assert (Hinit : lanes_bytes (mk_lanes 0 0 0 0))
    by (unfold lanes_bytes; cbn; lia).
  destruct (stringHash_loop_prefix pre 0%nat _ Hpre Hinit)
    as (lane & h & Hb & Hrun).
  rewrite !Hrun, !stringHash_loop_cons in Heq.
  destruct (N.eqb_spec (Byte.to_N c) 0); [contradiction |].
  destruct (N.eqb_spec (Byte.to_N c') 0); [contradiction |].
  assert (Hstep : lane_step lane h (Byte.to_N c)
                  <> lane_step lane h (Byte.to_N c')).
  { intros E. apply lane_step_char_inj in E;
      [| assumption | apply to_N_byte | apply to_N_byte].
    apply Hne.
    pose proof (Byte.of_to_N c) as E1. pose proof (Byte.of_to_N c') as E2.
    rewrite E in E1. congruence. }
  destruct (stringHash_loop_inj post (next_lane lane) _ _
              (lane_step_bytes lane h _ Hb) (lane_step_bytes lane h _ Hb)
              Hstep) as (Hdiff & Hb1 & Hb2).
  apply Hdiff. apply composite_inj; assumption.
Qed.

Lemma stringId_hash_one_char_witness :
  stringId_hash (stringId_of "pv:foo") <> stringId_hash (stringId_of "pv:fxo").
Proof.
  apply (stringId_hash_one_char (list_byte_of_string "pv:f")
           (list_byte_of_string "o") x6f x78 copyString copyString).
  - repeat constructor; discriminate.
  - discriminate.
  - discriminate.
  - discriminate.
Defined.
